(** * ssb_mcp: the query partitioner and the dataset assembly of [read_table]

    A shallow embedding of [src/ssb_mcp/main.py]: the cardinality count
    ([_count_combinations]), the recursive bisection ([_recursive_split]) and
    the orchestration in [read_table] (dimension building, the fetch loop and
    the accumulation of the sub-datasets into one data frame). *)

From Stdlib Require Import List String Ascii ZArith Lia Bool Arith DecimalString.
From Stdlib Require Import Sorting.Permutation.
Import ListNotations.

Local Open Scope string_scope.
Local Open Scope list_scope.
Local Open Scope Z_scope.

(** ** Exceptions and results

    A call either returns a value or raises.  The first group of exception
    classes is what the interpreter and the libraries raise on the paths of
    the source; the second group is the error taxonomy of the specification,
    which no path of the source constructs. *)

Inductive exception : Type :=
| RecursionError      (* the interpreter's recursion limit is exceeded *)
| ValueError          (* [max] of an empty sequence, an undecodable payload *)
| KeyError            (* subscript of a dict by an absent key *)
| HTTPStatusError     (* [raise_for_status] on an unsuccessful response *)
| MetadataError
| RemoteError
| SchemaMismatchError
| PartitionError.

Inductive result (A : Type) : Type :=
| Ok (a : A)
| Raise (e : exception).

Arguments Ok {A} a.
Arguments Raise {A} e.

Definition bind {A B : Type} (r : result A) (k : A -> result B) : result B :=
  match r with
  | Ok a => k a
  | Raise e => Raise e
  end.

Notation "x <- r ;; k" := (bind r (fun x => k))
  (at level 61, r at next level, right associativity).

(** ** Data model *)

(** A partition unit is a list of dicts [{"code": ..., "values": [...]}]. *)
Record Dimension : Type := mkDimension {
  code : string;
  values : list string
}.

Definition Query : Type := list Dimension.

(** [len] of a Python list, an unbounded integer. *)
Definition len {A : Type} (l : list A) : Z := Z.of_nat (List.length l).

(** ** Python comparisons used by the partitioner *)

(** [a > b] on [str]: code-point order.  A [string] holds the UTF-8 bytes,
    whose bytewise order is the code-point order. *)
Definition str_gt (a b : string) : bool :=
  match String.compare a b with
  | Gt => true
  | _ => false
  end.

(** [x > y] on lists: the first index where the items differ (by [==])
    decides; when one list is a prefix of the other, the longer is greater. *)
Fixpoint list_gt (x y : list string) : bool :=
  match x, y with
  | [], _ => false
  | _ :: _, [] => true
  | a :: x', b :: y' => if String.eqb a b then list_gt x' y' else str_gt a b
  end.

(** [==] on two-key dicts: equal codes and equal value lists. *)
Fixpoint list_eqb (x y : list string) : bool :=
  match x, y with
  | [], [] => true
  | a :: x', b :: y' => String.eqb a b && list_eqb x' y'
  | _, _ => false
  end.

Definition Dimension_eqb (a b : Dimension) : bool :=
  String.eqb (code a) (code b) && list_eqb (values a) (values b).

(** [max(iterable, key=lambda x: x["values"])]: the running maximum is
    replaced only by an item whose key is strictly greater, so the first of
    several maximal items is returned; an empty iterable raises. *)
Fixpoint max_from (best : Dimension) (rest : list Dimension) : Dimension :=
  match rest with
  | [] => best
  | v :: rest' =>
      if list_gt (values v) (values best)
      then max_from v rest'
      else max_from best rest'
  end.

Definition max_by_values (variables : list Dimension) : result Dimension :=
  match variables with
  | [] => Raise ValueError
  | v :: rest => Ok (max_from v rest)
  end.

(** ** The partitioner *)

Definition CAP : Z := 300000.

(** [_count_combinations]: the running product of the value counts. *)
Definition _count_combinations (variables : list Dimension) : Z :=
  fold_left (fun count variable => count * len (values variable)) variables 1.

(** The comprehension building a sub-query: every dict equal to the selected
    one gets the half [p], every other dict keeps its values. *)
Definition sub_query (largest_variable : Dimension) (p : list string)
    (variables : list Dimension) : Query :=
  map (fun variable =>
         {| code := code variable;
            values := if Dimension_eqb variable largest_variable
                      then p else values variable |})
      variables.

Definition split_index (largest_variable : Dimension) : nat :=
  Nat.div (List.length (values largest_variable)) 2.

(** [_recursive_split].  [fuel] is the number of nested activations the
    interpreter still allows; when it runs out the call raises
    [RecursionError].  The two recursive calls are evaluated left to right. *)
Fixpoint _recursive_split (fuel : nat) (variables : list Dimension)
    : result (list Query) :=
  match fuel with
  | O => Raise RecursionError
  | S fuel' =>
      let current_count := _count_combinations variables in
      if current_count <=? CAP then Ok [variables]
      else
        largest_variable <- max_by_values variables ;;
        let p1 := firstn (split_index largest_variable) (values largest_variable) in
        let p2 := skipn (split_index largest_variable) (values largest_variable) in
        let sub_query1 := sub_query largest_variable p1 variables in
        let sub_query2 := sub_query largest_variable p2 variables in
        r1 <- _recursive_split fuel' sub_query1 ;;
        r2 <- _recursive_split fuel' sub_query2 ;;
        Ok (r1 ++ r2)
  end.

(** ** The orchestration in [read_table] *)

(** The decoded metadata document.  Of a variable descriptor only the keys
    ["code"] and ["values"] are read, of the document only ["variables"];
    an absent key is [None]. *)
Record Descriptor : Type := mkDescriptor {
  d_code : option string;
  d_values : option (list string)
}.

Record Metadata : Type := mkMetadata {
  m_variables : option (list Descriptor)
}.

(** [d[key]] on a dict. *)
Definition subscript {A : Type} (entry : option A) : result A :=
  match entry with
  | Some a => Ok a
  | None => Raise KeyError
  end.

(** The comprehension over [metadata_variables]; the dict display evaluates
    ["code"] before ["values"], the descriptors in order. *)
Fixpoint build_variables (metadata_variables : list Descriptor)
    : result (list Dimension) :=
  match metadata_variables with
  | [] => Ok []
  | variable :: rest =>
      c <- subscript (d_code variable) ;;
      v <- subscript (d_values variable) ;;
      tl <- build_variables rest ;;
      Ok ({| code := c; values := v |} :: tl)
  end.

(** The request body of one sub-query. *)
Record Selection : Type := mkSelection {
  filter : string;
  sel_values : list string
}.

Record QueryItem : Type := mkQueryItem {
  q_code : string;
  selection : Selection
}.

Definition Payload : Type := list QueryItem.

Definition to_payload (sub_query : Query) : Payload :=
  map (fun variable =>
         {| q_code := code variable;
            selection := {| filter := "item"; sel_values := values variable |} |})
      sub_query.

(** *** Data frames

    pandas is a library, not code of the repository; the three operations the
    source uses follow its documented behaviour.  A frame has distinct column
    labels and one cell per column in every row; the row index is positional
    ([ignore_index=True]). *)

Inductive cell : Type :=
| NaN
| Value (s : string).

Record DataFrame : Type := mkDataFrame {
  columns : list string;
  data : list (list cell)
}.

(** [pd.DataFrame()] *)
Definition DataFrame_new : DataFrame := {| columns := []; data := [] |}.

(** [df.empty]: some axis has length 0. *)
Definition empty (df : DataFrame) : bool :=
  (Nat.eqb (List.length (columns df)) 0) || (Nat.eqb (List.length (data df)) 0).

Fixpoint lookup_cell (c : string) (labels : list string) (row : list cell) : cell :=
  match labels, row with
  | l :: labels', x :: row' => if String.eqb c l then x else lookup_cell c labels' row'
  | _, _ => NaN
  end.

(** A row over [labels] realigned to the columns [target]; a column the row
    does not have is filled with [NaN]. *)
Definition reindex (labels target : list string) (row : list cell) : list cell :=
  map (fun c => lookup_cell c labels row) target.

Definition mem (c : string) (labels : list string) : bool :=
  existsb (String.eqb c) labels.

(** [pd.concat([df, sub_df], ignore_index=True)]: the columns are the union
    in order of first appearance (outer join, no sorting), the rows of [df]
    come first, then those of [sub_df]. *)
Definition pd_concat (df sub_df : DataFrame) : DataFrame :=
  let cols := columns df ++
              List.filter (fun c => negb (mem c (columns df))) (columns sub_df) in
  {| columns := cols;
     data := map (reindex (columns df) cols) (data df) ++
             map (reindex (columns sub_df) cols) (data sub_df) |}.

(** The body of the loop over [queries].  [post] stands for the remote
    service together with the decoding of its payload: one request either
    raises ([HTTPStatusError], or [ValueError] from the decoder) or yields the
    sub-frame. *)
Definition accumulate (df sub_df : DataFrame) : DataFrame :=
  if empty df then sub_df else pd_concat df sub_df.

Fixpoint fetch_loop (post : Payload -> result DataFrame)
    (queries : list Payload) (df : DataFrame) : result DataFrame :=
  match queries with
  | [] => Ok df
  | sub_query :: rest =>
      sub_df <- post sub_query ;;
      fetch_loop post rest (accumulate df sub_df)
  end.

(** [read_table].  [table_metadata] is the outcome of the metadata request. *)
Definition read_table (fuel : nat) (table_metadata : result Metadata)
    (post : Payload -> result DataFrame) : result DataFrame :=
  metadata <- table_metadata ;;
  metadata_variables <- subscript (m_variables metadata) ;;
  variables <- build_variables metadata_variables ;;
  sub_variables <- _recursive_split fuel variables ;;
  let queries := map to_payload sub_variables in
  fetch_loop post queries DataFrame_new.

(** ** Notions the properties are stated with *)

(** The cells of a query: its cross-product, one value per dimension. *)
Fixpoint cells (q : Query) : list (list string) :=
  match q with
  | [] => [[]]
  | d :: rest => flat_map (fun v => map (cons v) (cells rest)) (values d)
  end.

(** Sum of the cardinalities of a list of queries. *)
Definition total_cardinality (qs : list Query) : Z :=
  fold_right Z.add 0 (map _count_combinations qs).

Definition with_values (d : Dimension) (p : list string) : Dimension :=
  {| code := code d; values := p |}.

(** The value count of every dimension of a query. *)
Definition value_counts (q : Query) : list Z :=
  map (fun d => len (values d)) q.

(** The recursive halving in the words of the specification (section 4.2),
    the choice of the dimension left open: a query within the cap is
    returned as it is; otherwise ONE dimension [d] is halved at
    [floor(n/2)], every other dimension is copied unchanged, and the
    partitions of the first and of the second half are concatenated. *)
Inductive Bisection : Query -> list Query -> Prop :=
| Bisection_leaf q :
    _count_combinations q <= CAP ->
    Bisection q [q]
| Bisection_node pre d post qs1 qs2 :
    CAP < _count_combinations (pre ++ d :: post) ->
    Bisection (pre ++ with_values d (firstn (split_index d) (values d)) :: post) qs1 ->
    Bisection (pre ++ with_values d (skipn (split_index d) (values d)) :: post) qs2 ->
    Bisection (pre ++ d :: post) (qs1 ++ qs2).

(** The dimension the specification selects (section 4.2, step 3): the
    first one of largest value count. *)
Fixpoint largest_count_from (best : Dimension) (rest : list Dimension) : Dimension :=
  match rest with
  | [] => best
  | v :: rest' =>
      if len (values best) <? len (values v)
      then largest_count_from v rest'
      else largest_count_from best rest'
  end.

Definition max_by_count (variables : list Dimension) : result Dimension :=
  match variables with
  | [] => Raise ValueError
  | v :: rest => Ok (largest_count_from v rest)
  end.

(** The number of values of a query, all dimensions together. *)
Definition weight (q : Query) : nat :=
  list_sum (map (fun d => List.length (values d)) q).

(** Each dimension alone, cut down far enough, brings the query under the
    cap: the cardinality is at most the cap times its value count. *)
Definition one_dimension_suffices (q : Query) : Prop :=
  Forall (fun d => _count_combinations q <= CAP * len (values d)) q.

(** A descriptor carrying both keys of a dimension. *)
Definition descriptor_of (v : Dimension) : Descriptor :=
  {| d_code := Some (code v); d_values := Some (values v) |}.

(** The rows of a sub-frame as they stand under the columns [target]. *)
Definition realigned (target : list string) (s : DataFrame) : list (list cell) :=
  map (reindex (columns s) target) (data s).

(** A frame as pandas holds it: distinct labels, one cell per column in
    every row, no rows without columns. *)
Definition well_formed (s : DataFrame) : Prop :=
  NoDup (columns s) /\
  Forall (fun row => List.length row = List.length (columns s)) (data s) /\
  (columns s = [] -> data s = []).

(** What the accumulated frame holds after the sub-frames [done]: their rows
    in order, each under the columns of the accumulated frame, which include
    the columns of every sub-frame that has rows. *)
Definition holds (done : list DataFrame) (df : DataFrame) : Prop :=
  well_formed df /\
  data df = flat_map (realigned (columns df)) done /\
  Forall (fun s => data s <> [] -> incl (columns s) (columns df)) done.

(** A descriptor without one of the two keys. *)
Definition lacks_key (d : Descriptor) : Prop :=
  d_code d = None \/ d_values d = None.

(** ** Concrete inputs *)

(** [[str(i) for i in range(n)]] *)
Definition numbered (n : nat) : list string :=
  map (fun i => NilEmpty.string_of_uint (Nat.to_uint i)) (seq 0 n).

(** Three dimensions of 100, 100 and 31 numbered values and a fourth one;
    with the single value ["x"] for it: 310000 cells. *)
Definition degenerate_query (z_values : list string) : Query :=
  [ {| code := "a"; values := numbered 100 |};
    {| code := "b"; values := numbered 100 |};
    {| code := "c"; values := numbered 31 |};
    {| code := "z"; values := z_values |} ].

(** Three dimensions of 100, 100 and 20 numbered values and a fourth one;
    with the two values ["x"] and ["y"] for it: 400000 cells. *)
Definition skewed_query (z_values : list string) : Query :=
  [ {| code := "a"; values := numbered 100 |};
    {| code := "b"; values := numbered 100 |};
    {| code := "c"; values := numbered 20 |};
    {| code := "z"; values := z_values |} ].

(** The same dimension twice; with 548 numbered values: 300304 cells. *)
Definition twin_query (x_values : list string) : Query :=
  [ {| code := "x"; values := x_values |};
    {| code := "x"; values := x_values |} ].

(** Two sub-frames of one request sequence whose column sets differ. *)
Definition by_region : DataFrame :=
  {| columns := ["region"; "value"];
     data := [[Value "0301"; Value "10"]] |}.

Definition by_year : DataFrame :=
  {| columns := ["year"; "value"];
     data := [[Value "2020"; Value "20"]] |}.

Definition region_payload : Payload :=
  to_payload [ {| code := "region"; values := ["0301"] |} ].

Definition year_payload : Payload :=
  to_payload [ {| code := "year"; values := ["2020"] |} ].

(** A service answering a payload on ["region"] with [by_region] and any
    other one with [by_year]. *)
Definition two_schemas (q : Payload) : result DataFrame :=
  match q with
  | [] => Raise HTTPStatusError
  | item :: _ =>
      if String.eqb (q_code item) "region" then Ok by_region else Ok by_year
  end.

(** Three sub-frames over the same columns, the second without rows. *)
Definition first_rows : DataFrame :=
  {| columns := ["region"; "value"];
     data := [[Value "0301"; Value "10"]; [Value "1103"; Value "11"]] |}.

Definition no_rows : DataFrame :=
  {| columns := ["region"; "value"]; data := [] |}.

Definition last_rows : DataFrame :=
  {| columns := ["region"; "value"];
     data := [[Value "5001"; Value "12"]] |}.

(** A service answering by the number of items of the payload. *)
Definition three_answers (q : Payload) : result DataFrame :=
  match q with
  | [] => Ok first_rows
  | [_] => Ok no_rows
  | _ => Ok last_rows
  end.

(** The labels of [l] in the order of their first appearance: a label is
    kept where it is met first and dropped where it is met again. *)
Fixpoint keep_first (seen l : list string) : list string :=
  match l with
  | [] => []
  | c :: l' =>
      if mem c seen then keep_first seen l'
      else c :: keep_first (c :: seen) l'
  end.

Definition first_seen (l : list string) : list string := keep_first [] l.

(** [n] dimensions [d0], [d1], ... of the two values ["a"] and ["b"]. *)
Definition binary_query (n : nat) : Query :=
  map (fun i => {| code := String.append "d" (NilEmpty.string_of_uint (Nat.to_uint i));
                   values := ["a"; "b"] |})
      (seq 0 n).

(** ** The request functions

    [search] and [table_metadata] send one GET and return the decoded body;
    [read_table] sends the metadata GET and then one POST per sub-query. *)

(** [sep.join(items)] *)
Fixpoint join (sep : string) (items : list string) : string :=
  match items with
  | [] => ""
  | x :: rest =>
      match rest with
      | [] => x
      | _ :: _ => String.append x (String.append sep (join sep rest))
      end
  end.

(** What the functions use of a response: whether its status is a success,
    which [raise_for_status] checks, and its body decoded by [json()], which
    raises when the body does not decode. *)
Record Response (J : Type) : Type := mkResponse {
  is_success : bool;
  json : result J
}.

Arguments mkResponse {J} _ _.
Arguments is_success {J} _.
Arguments json {J} _.

Definition raise_for_status {J : Type} (response : Response J) : result unit :=
  if is_success response then Ok tt else Raise HTTPStatusError.

(** [search].  [get] stands for [client.get]: it raises when the transport
    fails and yields the response otherwise. *)
Definition search {J : Type} (get : string -> result (Response J))
    (keywords : list string) : result J :=
  let query := join "%20" keywords in
  let url := String.append "https://data.ssb.no/api/v0/no/table/?query=" query in
  response <- get url ;;
  _ <- raise_for_status response ;;
  text <- json response ;;
  Ok text.

(** The URL of a table, built alike in [table_metadata] and [read_table]. *)
Definition table_url (table_id : string) : string :=
  String.append "https://data.ssb.no/api/v0/no/table/" table_id.

(** [table_metadata] *)
Definition table_metadata {J : Type} (get : string -> result (Response J))
    (table_id : string) : result J :=
  let url := table_url table_id in
  response <- get url ;;
  _ <- raise_for_status response ;;
  text <- json response ;;
  Ok text.

(** *** The requests a read sends

    The same orchestration with the requests it sends written down: a
    computation yields the list of requests sent so far and its outcome, and
    stops sending at the first exception. *)

Inductive request : Type :=
| GET (url : string)
| POST (url : string) (body : Payload).

Definition traced (A : Type) : Type := (list request * result A)%type.

Definition sent {A : Type} (m : traced A) : list request := fst m.

Definition outcome {A : Type} (m : traced A) : result A := snd m.

Definition tbind {A B : Type} (m : traced A) (k : A -> traced B) : traced B :=
  match snd m with
  | Ok a => (fst m ++ fst (k a), snd (k a))
  | Raise e => (fst m, Raise e)
  end.

Notation "x <~ m ;; k" := (tbind m (fun x => k))
  (at level 61, m at next level, right associativity).

(** A step that sends nothing. *)
Definition quiet {A : Type} (r : result A) : traced A := ([], r).

Definition client_get {J : Type} (get : string -> result (Response J))
    (url : string) : traced (Response J) :=
  ([GET url], get url).

Definition client_post (post : string -> Payload -> result DataFrame)
    (url : string) (body : Payload) : traced DataFrame :=
  ([POST url body], post url body).

Definition table_metadata_traced {J : Type} (get : string -> result (Response J))
    (table_id : string) : traced J :=
  let url := table_url table_id in
  response <~ client_get get url ;;
  _ <~ quiet (raise_for_status response) ;;
  text <~ quiet (json response) ;;
  quiet (Ok text).

Fixpoint fetch_loop_traced (post : string -> Payload -> result DataFrame)
    (url : string) (queries : list Payload) (df : DataFrame) : traced DataFrame :=
  match queries with
  | [] => quiet (Ok df)
  | sub_query :: rest =>
      sub_df <~ client_post post url sub_query ;;
      fetch_loop_traced post url rest (accumulate df sub_df)
  end.

Definition read_table_traced (fuel : nat)
    (get : string -> result (Response Metadata))
    (post : string -> Payload -> result DataFrame)
    (table_id : string) : traced DataFrame :=
  metadata <~ table_metadata_traced get table_id ;;
  metadata_variables <~ quiet (subscript (m_variables metadata)) ;;
  variables <~ quiet (build_variables metadata_variables) ;;
  sub_variables <~ quiet (_recursive_split fuel variables) ;;
  let queries := map to_payload sub_variables in
  let url := table_url table_id in
  fetch_loop_traced post url queries DataFrame_new.

(** The sub-queries a read is going to post: everything [read_table] does
    before its loop. *)
Definition planned (fuel : nat) (get : string -> result (Response Metadata))
    (table_id : string) : result (list Query) :=
  metadata <- table_metadata get table_id ;;
  metadata_variables <- subscript (m_variables metadata) ;;
  variables <- build_variables metadata_variables ;;
  _recursive_split fuel variables.

(** The number of cells a request body selects. *)
Definition payload_cells (body : Payload) : Z :=
  fold_left (fun count item => count * len (sel_values (selection item))) body 1.

(** ** The publication feed *)

(** A field of a feed entry holds a string or something that is no string
    (a list of links, a parsed time, ...), which [==] never equates with a
    string. *)
Inductive field_value : Type :=
| Text (s : string)
| Structure (tag : nat).

(** An entry of the parsed feed: a dict of fields. *)
Definition Entry : Type := list (string * field_value).

(** [entry[key]], [None] when [key not in entry]. *)
Fixpoint field (key : string) (entry : Entry) : option field_value :=
  match entry with
  | [] => None
  | (k, v) :: rest => if String.eqb key k then Some v else field key rest
  end.

(** ["ssbrss_date" in entry and entry.ssbrss_date == date] *)
Definition published_on (date : string) (entry : Entry) : bool :=
  match field "ssbrss_date" entry with
  | Some (Text d) => String.eqb d date
  | _ => false
  end.

(** [latest_publications].  [entries] is [feed.entries] of the parsed feed;
    [if date:] holds for a string that is not empty. *)
Definition latest_publications (entries : list Entry) (date : option string)
    : list Entry :=
  match date with
  | Some d =>
      if String.eqb d "" then entries
      else List.filter (published_on d) entries
  | None => entries
  end.

(** [l'] keeps some items of [l], in their order. *)
Inductive subsequence {A : Type} : list A -> list A -> Prop :=
| subsequence_nil : subsequence [] []
| subsequence_keep x l' l : subsequence l' l -> subsequence (x :: l') (x :: l)
| subsequence_drop x l' l : subsequence l' l -> subsequence l' (x :: l).

(** A metadata service answering every GET with the document of the
    given dimensions. *)
Definition serving (variables : Query) (url : string) : result (Response Metadata) :=
  Ok {| is_success := true;
        json := Ok {| m_variables := Some (map descriptor_of variables) |} |}.

(** A data service answering the bodies that select the value ["x"] of
    their last dimension and failing on every other body. *)
Definition answering_x (url : string) (body : Payload) : result DataFrame :=
  match rev body with
  | item :: _ =>
      if list_eqb (sel_values (selection item)) ["x"]
      then Ok by_region else Raise HTTPStatusError
  | [] => Raise HTTPStatusError
  end.

(** ** Notions for the further properties of the partitioner *)

(** [p] is a slice [vs[k:k+n]] of [vs]. *)
Definition segment_of (p vs : list string) : Prop :=
  exists k n, p = firstn n (skipn k vs).

(** [q'] restricts [q]: the same codes in the same order, every value list
    a slice of the one it comes from. *)
Definition restricts (q' q : Query) : Prop :=
  Forall2 (fun d' d => code d' = code d /\ segment_of (values d') (values d)) q' q.

(** The number of halvings all dimensions together admit: the sum of
    [ceil(log2(len(values)))]. *)
Definition halvings (q : Query) : nat :=
  list_sum (map (fun d => Nat.log2_up (List.length (values d))) q).

(** * Properties *)

(** ** Cardinality *)

Lemma fold_count_scale (q : Query) (a : Z) :
  fold_left (fun count variable => count * len (values variable)) q a =
  a * _count_combinations q.
Proof.
  unfold _count_combinations. revert a.
  induction q as [|d q IH]; intros a; cbn [fold_left].
  - lia.
  - rewrite IH, (IH (1 * len (values d))). lia.
Qed.

Lemma count_cons (d : Dimension) (q : Query) :
  _count_combinations (d :: q) = len (values d) * _count_combinations q.
Proof.
  unfold _count_combinations at 1. cbn [fold_left]. rewrite fold_count_scale. lia.
Qed.

Lemma count_nil : _count_combinations [] = 1.
Proof. reflexivity. Qed.

Lemma count_app (q1 q2 : Query) :
  _count_combinations (q1 ++ q2) = _count_combinations q1 * _count_combinations q2.
Proof.
  induction q1 as [|d q1 IH]; cbn [app].
  - rewrite count_nil. lia.
  - rewrite !count_cons, IH. lia.
Qed.

Lemma len_nonneg {A : Type} (l : list A) : 0 <= len l.
Proof. unfold len. lia. Qed.

Lemma count_nonneg (q : Query) : 0 <= _count_combinations q.
Proof.
  induction q as [|d q IH].
  - rewrite count_nil. lia.
  - rewrite count_cons. pose proof (len_nonneg (values d)). nia.
Qed.

Lemma len_app {A : Type} (l1 l2 : list A) : len (l1 ++ l2) = len l1 + len l2.
Proof. unfold len. rewrite length_app. lia. Qed.

Lemma len_halves (vs : list string) (k : nat) :
  len (firstn k vs) + len (skipn k vs) = len vs.
Proof. rewrite <- len_app, firstn_skipn. reflexivity. Qed.

(** The two halves of a value list: together the list, and without a common
    value when the list has none twice. *)
Lemma halves_disjoint (vs : list string) (k : nat) :
  firstn k vs ++ skipn k vs = vs /\
  (NoDup vs -> forall v, In v (firstn k vs) -> ~ In v (skipn k vs)).
Proof.
  split; [apply firstn_skipn |].
  rewrite <- (firstn_skipn k vs) at 1. intros Hnd v H1 H2.
  revert Hnd H1 H2. generalize (firstn k vs) (skipn k vs).
  induction l as [|a l IH]; intros l' Hnd H1 H2; [destruct H1 |].
  cbn [app] in Hnd. inversion Hnd as [|? ? Ha Hnd']; subst.
  destruct H1 as [-> | H1].
  - apply Ha, in_or_app. right. exact H2.
  - exact (IH l' Hnd' H1 H2).
Qed.

Lemma count_middle (pre post : Query) (d : Dimension) :
  _count_combinations (pre ++ d :: post) =
  _count_combinations pre * len (values d) * _count_combinations post.
Proof. rewrite count_app, count_cons. lia. Qed.

Lemma count_empty_dimension (q : Query) :
  Exists (fun d => values d = []) q -> _count_combinations q = 0.
Proof.
  induction 1 as [d q Hd | d q _ IH]; rewrite count_cons.
  - rewrite Hd. reflexivity.
  - rewrite IH. lia.
Qed.

Lemma length_cells (q : Query) :
  Z.of_nat (List.length (cells q)) = _count_combinations q.
Proof.
  induction q as [|d q IH]; cbn [cells].
  - reflexivity.
  - rewrite count_cons, <- IH. unfold len.
    induction (values d) as [|v vs IHv]; cbn [flat_map List.length].
    + reflexivity.
    + rewrite length_app, length_map. lia.
Qed.

(** ** Equality and selection *)

Lemma list_eqb_eq (x y : list string) : list_eqb x y = true <-> x = y.
Proof.
  revert y. induction x as [|a x IH]; intros [|b y]; cbn [list_eqb];
    try (split; [discriminate | discriminate]); try tauto.
  rewrite andb_true_iff, String.eqb_eq, IH.
  split; [intros [-> ->]; reflexivity | intros E; inversion E; auto].
Qed.

Lemma Dimension_eqb_eq (a b : Dimension) : Dimension_eqb a b = true <-> a = b.
Proof.
  unfold Dimension_eqb. rewrite andb_true_iff, String.eqb_eq, list_eqb_eq.
  destruct a as [ca va], b as [cb vb]; cbn [code values].
  split; [intros [-> ->]; reflexivity | intros E; inversion E; auto].
Qed.

Lemma Dimension_eqb_refl (a : Dimension) : Dimension_eqb a a = true.
Proof. apply Dimension_eqb_eq. reflexivity. Qed.

Lemma max_from_In (best : Dimension) (rest : list Dimension) :
  In (max_from best rest) (best :: rest).
Proof.
  revert best. induction rest as [|v rest IH]; intros best; cbn [max_from].
  - left. reflexivity.
  - destruct (list_gt (values v) (values best)).
    + right. apply IH.
    + destruct (IH best) as [E | H]; [left; exact E | right; right; exact H].
Qed.

Lemma max_by_values_In (variables : list Dimension) (d : Dimension) :
  max_by_values variables = Ok d -> In d variables.
Proof.
  destruct variables as [|v rest]; cbn [max_by_values]; intros E.
  - discriminate.
  - inversion E; subst. apply max_from_In.
Qed.

Lemma max_by_values_nonempty (variables : list Dimension) :
  variables <> [] -> exists d, max_by_values variables = Ok d.
Proof.
  destruct variables as [|v rest]; [congruence | intros _].
  eexists. reflexivity.
Qed.

(** ** Sub-queries *)

Lemma sub_query_codes (largest : Dimension) (p : list string) (q : Query) :
  map code (sub_query largest p q) = map code q.
Proof.
  unfold sub_query. rewrite map_map. reflexivity.
Qed.

Lemma sub_query_others (largest : Dimension) (p : list string) (q : Query) :
  ~ In (code largest) (map code q) -> sub_query largest p q = q.
Proof.
  unfold sub_query. induction q as [|v q IH]; cbn [map]; intros H.
  - reflexivity.
  - rewrite IH by (intros Hin; apply H; right; exact Hin).
    destruct (Dimension_eqb v largest) eqn:E.
    + apply Dimension_eqb_eq in E. subst v. exfalso. apply H. left. reflexivity.
    + destruct v; reflexivity.
Qed.

(** With distinct codes exactly one dict equals the selected one. *)
Lemma sub_query_unique (pre post : Query) (d : Dimension) (p : list string) :
  NoDup (map code (pre ++ d :: post)) ->
  sub_query d p (pre ++ d :: post) = pre ++ with_values d p :: post.
Proof.
  intros H. rewrite map_app in H. cbn [map] in H.
  pose proof (NoDup_remove_2 _ _ _ H) as Hnot.
  assert (Hpre : ~ In (code d) (map code pre))
    by (intros Hin; apply Hnot, in_or_app; left; exact Hin).
  assert (Hpost : ~ In (code d) (map code post))
    by (intros Hin; apply Hnot, in_or_app; right; exact Hin).
  unfold sub_query. rewrite map_app. cbn [map].
  fold (sub_query d p pre). fold (sub_query d p post).
  rewrite (sub_query_others d p pre Hpre), (sub_query_others d p post Hpost).
  rewrite Dimension_eqb_refl. reflexivity.
Qed.

Lemma with_values_codes (pre post : Query) (d : Dimension) (p : list string) :
  map code (pre ++ with_values d p :: post) = map code (pre ++ d :: post).
Proof. rewrite !map_app. reflexivity. Qed.

(** ** One activation of [_recursive_split] *)

Lemma _recursive_split_leaf (fuel : nat) (variables : Query) :
  _count_combinations variables <= CAP ->
  _recursive_split (S fuel) variables = Ok [variables].
Proof.
  intros H. cbn [_recursive_split].
  apply Z.leb_le in H. rewrite H. reflexivity.
Qed.

Lemma _recursive_split_node (fuel : nat) (variables : Query) (largest : Dimension) :
  CAP < _count_combinations variables ->
  max_by_values variables = Ok largest ->
  _recursive_split (S fuel) variables =
  (r1 <- _recursive_split fuel
           (sub_query largest (firstn (split_index largest) (values largest)) variables) ;;
   r2 <- _recursive_split fuel
           (sub_query largest (skipn (split_index largest) (values largest)) variables) ;;
   Ok (r1 ++ r2)).
Proof.
  intros H E. cbn [_recursive_split].
  apply Z.leb_gt in H. rewrite H, E. reflexivity.
Qed.

Lemma over_cap_nonempty (variables : Query) :
  CAP < _count_combinations variables -> variables <> [].
Proof.
  intros H ->. rewrite count_nil in H. unfold CAP in H. lia.
Qed.

(** Inversion of a returning activation. *)
Lemma _recursive_split_Ok_inv (fuel : nat) (variables : Query) (qs : list Query) :
  _recursive_split fuel variables = Ok qs ->
  exists fuel', fuel = S fuel' /\
    ((_count_combinations variables <= CAP /\ qs = [variables]) \/
     (CAP < _count_combinations variables /\
      exists largest r1 r2,
        max_by_values variables = Ok largest /\
        _recursive_split fuel'
          (sub_query largest (firstn (split_index largest) (values largest)) variables)
          = Ok r1 /\
        _recursive_split fuel'
          (sub_query largest (skipn (split_index largest) (values largest)) variables)
          = Ok r2 /\
        qs = r1 ++ r2)).
Proof.
  destruct fuel as [|fuel']; [discriminate | intros H].
  exists fuel'. split; [reflexivity |].
  destruct (Z.leb_spec (_count_combinations variables) CAP) as [Hle | Hgt].
  - left. rewrite _recursive_split_leaf in H by exact Hle.
    inversion H. auto.
  - right. split; [exact Hgt |].
    destruct (max_by_values_nonempty variables (over_cap_nonempty _ Hgt)) as [largest E].
    rewrite (_recursive_split_node fuel' variables largest Hgt E) in H.
    destruct (_recursive_split fuel' (sub_query largest (firstn _ _) variables))
      as [r1|e1] eqn:E1; cbn [bind] in H; [|discriminate].
    destruct (_recursive_split fuel' (sub_query largest (skipn _ _) variables))
      as [r2|e2] eqn:E2; cbn [bind] in H; [|discriminate].
    inversion H. exists largest, r1, r2. auto.
Qed.

(** The two ways an activation with [S fuel] returns: [Hc] bounds the
    cardinality; in the splitting case [E] names the selected dimension
    [largest], [H1] and [H2] the two recursive calls and their results. *)
Ltac returning_activation H :=
  apply _recursive_split_Ok_inv in H;
  destruct H as (f & Hf & [[Hc ->] | (Hc & largest & r1 & r2 & E & H1 & H2 & ->)]);
  inversion Hf; subst f.

(** More fuel does not change a returned result. *)
Lemma _recursive_split_fuel_mono (fuel fuel' : nat) (variables : Query) (qs : list Query) :
  _recursive_split fuel variables = Ok qs ->
  (fuel <= fuel')%nat ->
  _recursive_split fuel' variables = Ok qs.
Proof.
  revert fuel' variables qs.
  induction fuel as [|fuel IH]; intros fuel' variables qs H Hle; [discriminate |].
  destruct fuel' as [|fuel']; [lia |].
  returning_activation H.
  - apply _recursive_split_leaf. exact Hc.
  - rewrite (_recursive_split_node fuel' variables largest Hc E).
    rewrite (IH fuel' _ _ H1) by lia. cbn [bind].
    rewrite (IH fuel' _ _ H2) by lia. reflexivity.
Qed.

(** The only exception the partitioner raises is [RecursionError]. *)
Lemma _recursive_split_Raise (fuel : nat) (variables : Query) (e : exception) :
  _recursive_split fuel variables = Raise e -> e = RecursionError.
Proof.
  revert variables. induction fuel as [|fuel IH]; intros variables H.
  - inversion H. reflexivity.
  - destruct (Z.leb_spec (_count_combinations variables) CAP) as [Hle | Hgt].
    + rewrite _recursive_split_leaf in H by exact Hle. discriminate.
    + destruct (max_by_values_nonempty variables (over_cap_nonempty _ Hgt)) as [largest E].
      rewrite (_recursive_split_node fuel variables largest Hgt E) in H.
      destruct (_recursive_split fuel (sub_query largest (firstn _ _) variables))
        as [r1|e1] eqn:E1; cbn [bind] in H.
      * destruct (_recursive_split fuel (sub_query largest (skipn _ _) variables))
          as [r2|e2] eqn:E2; cbn [bind] in H; [discriminate |].
        inversion H; subst e2. exact (IH _ E2).
      * inversion H; subst e1. exact (IH _ E1).
Qed.

(** ** The code's recursion is a bisection when the codes are distinct *)

Lemma _recursive_split_Bisection (fuel : nat) (variables : Query) (qs : list Query) :
  NoDup (map code variables) ->
  _recursive_split fuel variables = Ok qs ->
  Bisection variables qs.
Proof.
  revert variables qs.
  induction fuel as [|fuel IH]; intros variables qs Hcodes H; [discriminate |].
  returning_activation H.
  - apply Bisection_leaf. exact Hc.
  - destruct (in_split _ _ (max_by_values_In _ _ E)) as (pre & post & ->).
    rewrite sub_query_unique in H1, H2 by exact Hcodes.
    apply Bisection_node.
    + exact Hc.
    + apply IH; [rewrite with_values_codes; exact Hcodes | exact H1].
    + apply IH; [rewrite with_values_codes; exact Hcodes | exact H2].
Qed.

(** ** What a bisection guarantees *)

Lemma total_cardinality_app (qs1 qs2 : list Query) :
  total_cardinality (qs1 ++ qs2) = total_cardinality qs1 + total_cardinality qs2.
Proof.
  unfold total_cardinality. induction qs1 as [|q qs1 IH]; cbn [app map fold_right].
  - lia.
  - rewrite IH. lia.
Qed.

Lemma Bisection_cap (q : Query) (qs : list Query) :
  Bisection q qs -> Forall (fun q' => _count_combinations q' <= CAP) qs.
Proof.
  induction 1 as [q Hc | pre d post qs1 qs2 _ _ IH1 _ IH2].
  - constructor; [exact Hc | constructor].
  - apply Forall_app. split; assumption.
Qed.

Lemma Bisection_total (q : Query) (qs : list Query) :
  Bisection q qs -> total_cardinality qs = _count_combinations q.
Proof.
  induction 1 as [q Hc | pre d post qs1 qs2 _ _ IH1 _ IH2].
  - unfold total_cardinality. cbn [map fold_right]. lia.
  - rewrite total_cardinality_app, IH1, IH2, !count_middle.
    cbn [with_values values].
    rewrite <- (len_halves (values d) (split_index d)). lia.
Qed.

Lemma Bisection_codes (q : Query) (qs : list Query) :
  Bisection q qs -> Forall (fun q' => map code q' = map code q) qs.
Proof.
  induction 1 as [q Hc | pre d post qs1 qs2 _ _ IH1 _ IH2].
  - constructor; [reflexivity | constructor].
  - rewrite with_values_codes in IH1, IH2.
    apply Forall_app. split; assumption.
Qed.

Lemma flat_map_cons_split (vs : list string) (X c1 c2 : list (list string)) :
  Permutation X (c1 ++ c2) ->
  Permutation (flat_map (fun v => map (cons v) X) vs)
              (flat_map (fun v => map (cons v) c1) vs ++
               flat_map (fun v => map (cons v) c2) vs).
Proof.
  intros HX. induction vs as [|v vs IH]; cbn [flat_map].
  - constructor.
  - transitivity ((map (cons v) c1 ++ map (cons v) c2) ++
                  (flat_map (fun v => map (cons v) c1) vs ++
                   flat_map (fun v => map (cons v) c2) vs)).
    + apply Permutation_app; [| exact IH].
      rewrite <- map_app. apply Permutation_map. exact HX.
    + rewrite <- !app_assoc. apply Permutation_app_head.
      rewrite !app_assoc. apply Permutation_app_tail.
      apply Permutation_app_comm.
Qed.

(** Halving one dimension splits the cells in two, none lost, none twice. *)
Lemma cells_halves (pre post : Query) (d : Dimension) (p1 p2 : list string) :
  values d = p1 ++ p2 ->
  Permutation (cells (pre ++ d :: post))
              (cells (pre ++ with_values d p1 :: post) ++
               cells (pre ++ with_values d p2 :: post)).
Proof.
  intros Hd. induction pre as [|a pre IH]; cbn [app cells].
  - cbn [with_values values]. rewrite Hd, flat_map_app. reflexivity.
  - apply flat_map_cons_split. exact IH.
Qed.

Lemma Bisection_cells (q : Query) (qs : list Query) :
  Bisection q qs -> Permutation (cells q) (flat_map cells qs).
Proof.
  induction 1 as [q Hc | pre d post qs1 qs2 _ _ IH1 _ IH2].
  - cbn [flat_map]. rewrite app_nil_r. reflexivity.
  - rewrite flat_map_app, <- IH1, <- IH2.
    apply cells_halves. symmetry. apply firstn_skipn.
Qed.

(** A cell picks one value of every dimension. *)
Lemma In_cells (q : Query) (c : list string) :
  In c (cells q) <-> Forall2 (fun v d => In v (values d)) c q.
Proof.
  revert c. induction q as [|d q IH]; intros c; cbn [cells].
  - split.
    + intros [<- | []]. constructor.
    + intros H. inversion H. left. reflexivity.
  - rewrite in_flat_map. split.
    + intros (v & Hv & Hc). apply in_map_iff in Hc.
      destruct Hc as (c' & <- & Hc'). constructor; [exact Hv | apply IH; exact Hc'].
    + intros H. inversion H as [|v d' c' q' Hv Hc']; subst.
      exists v. split; [exact Hv |]. apply in_map. apply IH. exact Hc'.
Qed.

(** ** Queries on which the partitioner returns

    When no dimension is needed to bring the query under the cap but the one
    being halved (the product of the other value counts is within the cap,
    for every dimension), a selected dimension has at least two values, both
    halves are shorter, and the recursion ends. *)

Lemma weight_middle (pre post : Query) (d : Dimension) :
  weight (pre ++ d :: post) =
  (weight pre + List.length (values d) + weight post)%nat.
Proof.
  unfold weight. rewrite map_app, list_sum_app.
  cbn [map]. unfold list_sum. cbn [fold_right]. lia.
Qed.

Lemma one_dimension_suffices_half (pre post : Query) (d : Dimension) (p : list string) :
  (0 < List.length (values d))%nat ->
  (List.length p <= List.length (values d))%nat ->
  one_dimension_suffices (pre ++ d :: post) ->
  one_dimension_suffices (pre ++ with_values d p :: post).
Proof.
  unfold one_dimension_suffices. intros Hpos Hle H.
  rewrite count_middle in H. rewrite count_middle. cbn [with_values values].
  pose proof (count_nonneg pre) as Hpre. pose proof (count_nonneg post) as Hpost.
  assert (Hp : len p <= len (values d)) by (unfold len; lia).
  assert (Hd : 0 < len (values d)) by (unfold len; lia).
  pose proof (len_nonneg p) as Hp0.
  apply Forall_app in H. destruct H as [H1 H2].
  inversion H2 as [|? ? Hhere H3]; subst.
  assert (Hothers : _count_combinations pre * _count_combinations post <= CAP)
    by (unfold CAP in *; nia).
  assert (Hless : _count_combinations pre * len p * _count_combinations post <=
                  _count_combinations pre * len (values d) * _count_combinations post)
    by nia.
  apply Forall_app. split; [| constructor].
  - eapply Forall_impl; [| exact H1]. cbv beta. intros a Ha. lia.
  - cbn [with_values values]. unfold CAP in *. nia.
  - eapply Forall_impl; [| exact H3]. cbv beta. intros a Ha. lia.
Qed.

Lemma selected_has_two_values (pre post : Query) (d : Dimension) :
  CAP < _count_combinations (pre ++ d :: post) ->
  one_dimension_suffices (pre ++ d :: post) ->
  (2 <= List.length (values d))%nat.
Proof.
  unfold one_dimension_suffices. intros Hc H.
  apply Forall_app in H. destruct H as [_ H].
  inversion H as [|? ? Hhere _]; subst.
  unfold len in Hhere. unfold CAP in *.
  destruct (List.length (values d)) as [|[|n]]; lia.
Qed.

Lemma _recursive_split_returns (variables : Query) :
  NoDup (map code variables) ->
  one_dimension_suffices variables ->
  exists fuel qs, _recursive_split fuel variables = Ok qs.
Proof.
  remember (weight variables) as n eqn:Hn.
  assert (Hle : (weight variables <= n)%nat) by lia. clear Hn.
  revert variables Hle.
  induction n as [|n IH]; intros variables Hle Hcodes Hone;
    destruct (Z.leb_spec (_count_combinations variables) CAP) as [Hc | Hc];
    try (exists 1%nat, [variables]; apply _recursive_split_leaf; exact Hc);
    destruct (max_by_values_nonempty variables (over_cap_nonempty _ Hc)) as [d E];
    destruct (in_split _ _ (max_by_values_In _ _ E)) as (pre & post & ->);
    pose proof (selected_has_two_values pre post d Hc Hone) as Htwo;
    rewrite weight_middle in Hle; [lia |].
  assert (Hk : (1 <= split_index d < List.length (values d))%nat).
  { unfold split_index. split.
    - apply Nat.div_le_lower_bound; lia.
    - apply Nat.Div0.div_lt_upper_bound; lia. }
  destruct (IH (pre ++ with_values d (firstn (split_index d) (values d)) :: post))
    as (f1 & r1 & H1).
  { rewrite weight_middle. cbn [with_values values]. rewrite length_firstn. lia. }
  { rewrite with_values_codes. exact Hcodes. }
  { apply one_dimension_suffices_half; [lia | rewrite length_firstn; lia | exact Hone]. }
  destruct (IH (pre ++ with_values d (skipn (split_index d) (values d)) :: post))
    as (f2 & r2 & H2).
  { rewrite weight_middle. cbn [with_values values]. rewrite length_skipn. lia. }
  { rewrite with_values_codes. exact Hcodes. }
  { apply one_dimension_suffices_half; [lia | rewrite length_skipn; lia | exact Hone]. }
  exists (S (Nat.max f1 f2)), (r1 ++ r2).
  rewrite (_recursive_split_node _ _ d Hc E).
  rewrite !sub_query_unique by exact Hcodes.
  rewrite (_recursive_split_fuel_mono f1 (Nat.max f1 f2) _ _ H1) by lia.
  cbn [bind].
  rewrite (_recursive_split_fuel_mono f2 (Nat.max f1 f2) _ _ H2) by lia.
  reflexivity.
Qed.

(** On such a query the partitioner returns a partition: queries within the
    cap that conserve the cardinality and cover the cells. *)
Corollary _recursive_split_partitions (variables : Query) :
  NoDup (map code variables) ->
  one_dimension_suffices variables ->
  exists fuel qs,
    _recursive_split fuel variables = Ok qs /\
    Forall (fun q => _count_combinations q <= CAP) qs /\
    total_cardinality qs = _count_combinations variables /\
    Permutation (cells variables) (flat_map cells qs).
Proof.
  intros Hcodes Hone.
  destruct (_recursive_split_returns variables Hcodes Hone) as (fuel & qs & H).
  pose proof (_recursive_split_Bisection fuel variables qs Hcodes H) as HB.
  exists fuel, qs. split; [exact H |].
  split; [exact (Bisection_cap _ _ HB) |].
  split; [exact (Bisection_total _ _ HB) | exact (Bisection_cells _ _ HB)].
Qed.

(** ** The three concrete queries, traced *)

Lemma degenerate_query_selection :
  max_by_values (degenerate_query ["x"]) = Ok {| code := "z"; values := ["x"] |}.
Proof. vm_compute. reflexivity. Qed.

Lemma degenerate_query_over_cap : CAP < _count_combinations (degenerate_query ["x"]).
Proof. vm_compute. reflexivity. Qed.

Lemma degenerate_query_halves (z : Dimension) :
  z = {| code := "z"; values := ["x"] |} ->
  sub_query z (firstn (split_index z) (values z)) (degenerate_query ["x"])
    = degenerate_query [] /\
  sub_query z (skipn (split_index z) (values z)) (degenerate_query ["x"])
    = degenerate_query ["x"].
Proof. intros ->. split; vm_compute; reflexivity. Qed.

(** The second half of the degenerate query is the query itself, so every
    activation starts another one. *)
Lemma degenerate_query_recursion (fuel : nat) :
  _recursive_split fuel (degenerate_query ["x"]) = Raise RecursionError.
Proof.
  induction fuel as [|fuel IH]; [reflexivity |].
  rewrite (_recursive_split_node fuel _ _ degenerate_query_over_cap
             degenerate_query_selection).
  destruct (degenerate_query_halves _ eq_refl) as [-> ->].
  rewrite IH.
  destruct (_recursive_split fuel (degenerate_query [])) as [r1 | e] eqn:E1.
  - reflexivity.
  - rewrite (_recursive_split_Raise _ _ _ E1). reflexivity.
Qed.

Lemma skewed_query_split :
  _recursive_split 2 (skewed_query ["x"; "y"]) =
  Ok [skewed_query ["x"]; skewed_query ["y"]].
Proof. vm_compute. reflexivity. Qed.

Lemma skewed_query_codes : NoDup (map code (skewed_query ["x"; "y"])).
Proof.
  cbn [skewed_query map code].
  repeat (constructor; [cbn [In]; intros H; repeat destruct H as [H | H];
                        try discriminate H; exact H |]).
  constructor.
Qed.

Lemma twin_query_split :
  _recursive_split 2 (twin_query (numbered 548)) =
  Ok [twin_query (firstn 274 (numbered 548)); twin_query (skipn 274 (numbered 548))].
Proof. vm_compute. reflexivity. Qed.

Lemma In_numbered (i n : nat) :
  (i < n)%nat -> In (NilEmpty.string_of_uint (Nat.to_uint i)) (numbered n).
Proof.
  intros H. unfold numbered.
  apply (in_map (fun i => NilEmpty.string_of_uint (Nat.to_uint i))).
  apply in_seq. lia.
Qed.

Lemma mem_false_not_In (c : string) (labels : list string) :
  mem c labels = false -> ~ In c labels.
Proof.
  intros H Hin.
  assert (E : mem c labels = true).
  { apply existsb_exists. exists c. split; [exact Hin | apply String.eqb_refl]. }
  congruence.
Qed.

Lemma In_cells_twin (vs ws : list string) (u v : string) :
  In [u; v] (cells [ {| code := "x"; values := vs |}; {| code := "x"; values := ws |} ])
  <-> In u vs /\ In v ws.
Proof.
  rewrite In_cells. split.
  - intros H. inversion H as [|? ? ? ? Hu H']; subst.
    inversion H' as [|? ? ? ? Hv _]; subst. auto.
  - intros [Hu Hv]. repeat constructor; assumption.
Qed.

(** * The partitioner *)

(** C1, at a query the code splits on another dimension than the one of
    largest value count: [max] is keyed by the value LISTS, which Python
    orders lexicographically, so of the dimensions [a] (100 values), [b]
    (100), [c] (20) and [z] (2 values, ["x"] and ["y"]) it selects [z],
    whose list is greatest, where the first dimension of largest count is
    [a]; the split is on [z]. *)
Theorem selection_compares_value_lists :
  CAP < _count_combinations (skewed_query ["x"; "y"]) /\
  value_counts (skewed_query ["x"; "y"]) = [100; 100; 20; 2] /\
  max_by_values (skewed_query ["x"; "y"]) = Ok {| code := "z"; values := ["x"; "y"] |} /\
  max_by_count (skewed_query ["x"; "y"]) = Ok {| code := "a"; values := numbered 100 |} /\
  _recursive_split 2 (skewed_query ["x"; "y"]) =
    Ok [skewed_query ["x"]; skewed_query ["y"]].
Proof.
  repeat split; vm_compute; reflexivity.
Qed.

(** C2, at the degenerate query: its cardinality 310000 exceeds the cap, the
    selected dimension [z] has the single value ["x"], and whatever the
    recursion limit the call ends in [RecursionError], never in a result. *)
Theorem degenerate_query_never_returns :
  CAP < _count_combinations (degenerate_query ["x"]) /\
  max_by_values (degenerate_query ["x"]) = Ok {| code := "z"; values := ["x"] |} /\
  forall fuel, _recursive_split fuel (degenerate_query ["x"]) = Raise RecursionError.
Proof.
  split; [exact degenerate_query_over_cap |].
  split; [exact degenerate_query_selection |].
  exact degenerate_query_recursion.
Qed.

(** C3, at the degenerate query (cardinality over the cap, the selected
    dimension of a single value): whatever the recursion limit, the call
    neither returns a list of queries within the cap nor raises
    [PartitionError]; it ends in [RecursionError]. *)
Lemma degenerate_query_no_PartitionError :
  CAP < _count_combinations (degenerate_query ["x"]) /\
  max_by_values (degenerate_query ["x"]) = Ok {| code := "z"; values := ["x"] |} /\
  (forall fuel, _recursive_split fuel (degenerate_query ["x"]) = Raise RecursionError) /\
  ~ ((exists fuel qs,
        _recursive_split fuel (degenerate_query ["x"]) = Ok qs /\
        Forall (fun q => _count_combinations q <= CAP) qs) \/
     (exists fuel,
        _recursive_split fuel (degenerate_query ["x"]) = Raise PartitionError)).
Proof.
  split; [exact degenerate_query_over_cap |].
  split; [exact degenerate_query_selection |].
  split; [exact degenerate_query_recursion |].
  intros [(fuel & qs & H & _) | (fuel & H)];
    rewrite degenerate_query_recursion in H; discriminate.
Qed.

(** What holds of every returned list: each query in it has cardinality at
    most the cap of 300,000. *)
Theorem returned_queries_within_cap (fuel : nat) (variables : Query) (qs : list Query) :
  _recursive_split fuel variables = Ok qs ->
  Forall (fun q => _count_combinations q <= CAP) qs.
Proof.
  revert variables qs.
  induction fuel as [|fuel IH]; intros variables qs H; [discriminate |].
  returning_activation H.
  - constructor; [exact Hc | constructor].
  - apply Forall_app. split; [exact (IH _ _ H1) | exact (IH _ _ H2)].
Qed.

Lemma returned_queries_within_cap_witness :
  Forall (fun q => _count_combinations q <= CAP)
         [skewed_query ["x"]; skewed_query ["y"]].
Proof.
  apply (returned_queries_within_cap 2 (skewed_query ["x"; "y"])).
  vm_compute. reflexivity.
Defined.

(** A dimension listed twice, which the data model excludes (codes are
    unique): both occurrences are halved together, and the cell taking ["0"]
    in the first and ["300"] in the second is in no returned query. *)
Lemma twin_dimensions_lose_cells :
  exists qs,
    _recursive_split 2 (twin_query (numbered 548)) = Ok qs /\
    In ["0"; "300"] (cells (twin_query (numbered 548))) /\
    ~ In ["0"; "300"] (flat_map cells qs) /\
    ~ Permutation (cells (twin_query (numbered 548))) (flat_map cells qs).
Proof.
  eexists. split; [exact twin_query_split |].
  assert (Hin : In ["0"; "300"] (cells (twin_query (numbered 548)))).
  { apply In_cells_twin. split.
    - exact (In_numbered 0 548 ltac:(lia)).
    - exact (In_numbered 300 548 ltac:(lia)). }
  assert (Hout : ~ In ["0"; "300"]
                     (flat_map cells [twin_query (firstn 274 (numbered 548));
                                      twin_query (skipn 274 (numbered 548))])).
  { intros H. apply in_flat_map in H. destruct H as (q & [<- | [<- | []]] & Hc);
      apply In_cells_twin in Hc; destruct Hc as [H0 H300].
    - revert H300. apply mem_false_not_In. vm_compute. reflexivity.
    - revert H0. apply mem_false_not_In. vm_compute. reflexivity. }
  split; [exact Hin |]. split; [exact Hout |].
  intros HP. apply Hout. exact (Permutation_in _ HP Hin).
Qed.

(** What holds of a returned list when the codes are pairwise distinct: its
    queries cover the cross-product of the input exactly (every cell once,
    as multisets of cells), and the list is a bisection: at each split one
    dimension's values are cut at the midpoint into a first and a second
    half, every other dimension unchanged. *)
Theorem partition_covers_cross_product (fuel : nat) (variables : Query) (qs : list Query) :
  NoDup (map code variables) ->
  _recursive_split fuel variables = Ok qs ->
  Permutation (cells variables) (flat_map cells qs) /\
  Bisection variables qs.
Proof.
  intros Hcodes H.
  pose proof (_recursive_split_Bisection _ _ _ Hcodes H) as HB.
  split; [apply Bisection_cells; exact HB | exact HB].
Qed.

Lemma partition_covers_cross_product_witness :
  Permutation (cells (skewed_query ["x"; "y"]))
              (flat_map cells [skewed_query ["x"]; skewed_query ["y"]]) /\
  Bisection (skewed_query ["x"; "y"]) [skewed_query ["x"]; skewed_query ["y"]].
Proof.
  apply (partition_covers_cross_product 2).
  - exact skewed_query_codes.
  - vm_compute. reflexivity.
Defined.

(** A dimension listed twice, which the data model excludes: the two
    returned queries hold 75076 cells each, 150152 of the 300304. *)
Lemma twin_dimensions_lose_cardinality :
  exists qs,
    _recursive_split 2 (twin_query (numbered 548)) = Ok qs /\
    total_cardinality qs = 150152 /\
    _count_combinations (twin_query (numbered 548)) = 300304 /\
    total_cardinality qs <> _count_combinations (twin_query (numbered 548)).
Proof.
  eexists. split; [exact twin_query_split |].
  split; [| split]; vm_compute; [reflexivity | reflexivity | discriminate].
Qed.

(** What holds of a returned list when the codes are pairwise distinct: the
    cardinalities of its queries sum to the product of the value counts of
    the input. *)
Theorem cardinality_conservation (fuel : nat) (variables : Query) (qs : list Query) :
  NoDup (map code variables) ->
  _recursive_split fuel variables = Ok qs ->
  total_cardinality qs = _count_combinations variables.
Proof.
  intros Hcodes H. apply Bisection_total.
  exact (_recursive_split_Bisection _ _ _ Hcodes H).
Qed.

Lemma cardinality_conservation_witness :
  total_cardinality [skewed_query ["x"]; skewed_query ["y"]] =
  _count_combinations (skewed_query ["x"; "y"]).
Proof.
  apply (cardinality_conservation 2).
  - exact skewed_query_codes.
  - vm_compute. reflexivity.
Defined.

(** C6: a dimension list of cardinality at most the cap is returned as the
    single element of the result, unchanged, by the first activation (one
    unit of [fuel] is enough: no recursive call is made). *)
Theorem terminal_case_unchanged (fuel : nat) (variables : Query) :
  _count_combinations variables <= CAP ->
  _recursive_split (S fuel) variables = Ok [variables].
Proof.
  intros H. cbn [_recursive_split].
  destruct (Z.leb_spec (_count_combinations variables) CAP) as [_ | Hgt].
  - reflexivity.
  - lia.
Qed.

Lemma terminal_case_unchanged_witness :
  _recursive_split 1 [ {| code := "x"; values := ["a"] |} ] =
  Ok [[ {| code := "x"; values := ["a"] |} ]].
Proof.
  apply (terminal_case_unchanged 0).
  vm_compute. discriminate.
Defined.

(** C10: when some dimension has an empty values list the cardinality is 0,
    which is within the cap, and the input is returned as the single query,
    empty dimension included. *)
Theorem empty_dimension_returned_unsplit (fuel : nat) (variables : Query) :
  Exists (fun d => values d = []) variables ->
  _count_combinations variables = 0 /\
  _count_combinations variables <= CAP /\
  _recursive_split (S fuel) variables = Ok [variables].
Proof.
  intros H. apply count_empty_dimension in H.
  assert (Hc : _count_combinations variables <= CAP)
    by (rewrite H; unfold CAP; lia).
  split; [exact H |]. split; [exact Hc |].
  apply _recursive_split_leaf. exact Hc.
Qed.

Lemma empty_dimension_returned_unsplit_witness :
  _count_combinations [ {| code := "x"; values := ["a"] |};
                        {| code := "y"; values := [] |} ] = 0 /\
  _count_combinations [ {| code := "x"; values := ["a"] |};
                        {| code := "y"; values := [] |} ] <= CAP /\
  _recursive_split 1 [ {| code := "x"; values := ["a"] |};
                       {| code := "y"; values := [] |} ] =
  Ok [[ {| code := "x"; values := ["a"] |}; {| code := "y"; values := [] |} ]].
Proof.
  apply (empty_dimension_returned_unsplit 0).
  right. left. reflexivity.
Defined.

(** * The dataset assembly *)

(** ** Realigning rows *)

Lemma mem_In (c : string) (labels : list string) :
  mem c labels = true <-> In c labels.
Proof.
  unfold mem. rewrite existsb_exists. split.
  - intros (x & Hx & E). apply String.eqb_eq in E. subst x. exact Hx.
  - intros H. exists c. split; [exact H | apply String.eqb_refl].
Qed.

Lemma lookup_cell_absent (c : string) (labels : list string) (row : list cell) :
  ~ In c labels -> lookup_cell c labels row = NaN.
Proof.
  revert row. induction labels as [|l labels IH]; intros row H.
  - reflexivity.
  - destruct row as [|x row]; [reflexivity |]. cbn [lookup_cell].
    destruct (String.eqb_spec c l) as [-> | _].
    + exfalso. apply H. left. reflexivity.
    + apply IH. intros Hin. apply H. right. exact Hin.
Qed.

Lemma lookup_cell_map (c : string) (labels : list string) (f : string -> cell) :
  In c labels -> lookup_cell c labels (map f labels) = f c.
Proof.
  induction labels as [|l labels IH]; intros H; [destruct H |].
  cbn [map lookup_cell].
  destruct (String.eqb_spec c l) as [-> | Hne]; [reflexivity |].
  destruct H as [-> | H]; [congruence | exact (IH H)].
Qed.

Lemma reindex_length (labels target : list string) (row : list cell) :
  List.length (reindex labels target row) = List.length target.
Proof. unfold reindex. apply length_map. Qed.

(** Under its own columns a row stands as it is. *)
Lemma reindex_id (labels : list string) (row : list cell) :
  NoDup labels ->
  List.length row = List.length labels ->
  reindex labels labels row = row.
Proof.
  unfold reindex. revert row.
  induction labels as [|l labels IH]; intros row Hnd Hlen.
  - destruct row; [reflexivity | discriminate].
  - destruct row as [|x row]; [discriminate |].
    inversion Hnd as [|? ? Hl Hnd']; subst.
    cbn [map lookup_cell]. rewrite String.eqb_refl. f_equal.
    transitivity (map (fun c => lookup_cell c labels row) labels).
    + apply map_ext_in. intros c Hc. cbn [lookup_cell].
      destruct (String.eqb_spec c l) as [-> | _]; [contradiction | reflexivity].
    + apply IH; [exact Hnd' | cbn [List.length] in Hlen; lia].
Qed.

(** Realigning twice is realigning once, when no column is lost on the way. *)
Lemma reindex_reindex (labels middle target : list string) (row : list cell) :
  incl labels middle ->
  reindex middle target (reindex labels middle row) = reindex labels target row.
Proof.
  intros Hincl. unfold reindex. apply map_ext. intros c.
  destruct (in_dec string_dec c middle) as [Hin | Hout].
  - apply (lookup_cell_map c middle (fun c' => lookup_cell c' labels row) Hin).
  - rewrite (lookup_cell_absent c middle) by exact Hout.
    rewrite (lookup_cell_absent c labels); [reflexivity |].
    intros Hin. apply Hout, Hincl, Hin.
Qed.

(** Realigning to more columns and back gives the row again. *)
Lemma reindex_lossless (labels target : list string) (row : list cell) :
  NoDup labels ->
  List.length row = List.length labels ->
  incl labels target ->
  reindex target labels (reindex labels target row) = row.
Proof.
  intros Hnd Hlen Hincl.
  transitivity (reindex labels labels row); [| exact (reindex_id labels row Hnd Hlen)].
  unfold reindex. apply map_ext_in. intros c Hc.
  apply (lookup_cell_map c target (fun c' => lookup_cell c' labels row)).
  apply Hincl, Hc.
Qed.

Lemma realigned_own_columns (s : DataFrame) :
  well_formed s -> realigned (columns s) s = data s.
Proof.
  intros (Hnd & Hrows & _). unfold realigned.
  transitivity (map (fun row => row) (data s)); [| apply map_id].
  apply map_ext_in. intros row Hrow.
  apply reindex_id; [exact Hnd |].
  rewrite Forall_forall in Hrows. exact (Hrows row Hrow).
Qed.

Lemma realigned_nil (target : list string) (s : DataFrame) :
  data s = [] -> realigned target s = [].
Proof. unfold realigned. intros ->. reflexivity. Qed.

Lemma flat_map_realigned_nil (target : list string) (subs : list DataFrame) :
  flat_map (realigned target) subs = [] <-> Forall (fun s => data s = []) subs.
Proof.
  induction subs as [|s subs IH]; cbn [flat_map].
  - split; [constructor | reflexivity].
  - split.
    + intros H. apply app_eq_nil in H. destruct H as [Hs Hsubs].
      constructor; [| apply IH; exact Hsubs].
      unfold realigned in Hs. apply map_eq_nil in Hs. exact Hs.
    + intros H. inversion H as [|? ? Hs Hsubs]; subst.
      rewrite (realigned_nil target s Hs). apply IH. exact Hsubs.
Qed.

(** ** The columns of a concatenation *)

Lemma new_columns_none (labels : list string) :
  List.filter (fun c => negb (mem c labels)) labels = [].
Proof.
  assert (H : forall l, incl l labels ->
                List.filter (fun c => negb (mem c labels)) l = []).
  { induction l as [|c l IH]; intros Hincl; [reflexivity |].
    cbn [List.filter].
    assert (E : mem c labels = true) by (apply mem_In, Hincl; left; reflexivity).
    rewrite E. cbn [negb]. apply IH. intros x Hx. apply Hincl. right. exact Hx. }
  apply H. apply incl_refl.
Qed.

Lemma pd_concat_columns_In (df s : DataFrame) (c : string) :
  In c (columns (pd_concat df s)) <-> In c (columns df) \/ In c (columns s).
Proof.
  cbn [pd_concat columns]. rewrite in_app_iff, filter_In. split.
  - intros [H | [H _]]; auto.
  - intros [H | H]; [left; exact H |].
    destruct (mem c (columns df)) eqn:E.
    + left. apply mem_In. exact E.
    + right. split; [exact H | reflexivity].
Qed.

Lemma pd_concat_NoDup (df s : DataFrame) :
  NoDup (columns df) -> NoDup (columns s) -> NoDup (columns (pd_concat df s)).
Proof.
  intros Hdf Hs. cbn [pd_concat columns]. apply NoDup_app.
  - exact Hdf.
  - apply NoDup_filter. exact Hs.
  - intros c Hc Hf. apply filter_In in Hf. destruct Hf as [_ Hf].
    apply mem_In in Hc. cbv beta in Hf. rewrite Hc in Hf. discriminate.
Qed.

(** ** The accumulated frame *)

Lemma empty_well_formed_no_rows (df : DataFrame) :
  well_formed df -> empty df = true -> data df = [].
Proof.
  intros (_ & _ & Hcols) H. unfold empty in H.
  apply orb_true_iff in H. destruct H as [H | H]; apply Nat.eqb_eq in H.
  - apply Hcols. destruct (columns df); [reflexivity | discriminate].
  - destruct (data df); [reflexivity | discriminate].
Qed.

Lemma holds_new : holds [] DataFrame_new.
Proof.
  split; [| split].
  - split; [constructor | split; [constructor | reflexivity]].
  - reflexivity.
  - constructor.
Qed.

Lemma pd_concat_well_formed (df s : DataFrame) :
  well_formed df -> well_formed s -> empty df = false ->
  well_formed (pd_concat df s).
Proof.
  intros (Hnd & _ & _) (Hnds & _ & _) Hne.
  split; [apply pd_concat_NoDup; assumption | split].
  - cbn [pd_concat data columns]. apply Forall_app. split;
      apply Forall_map, Forall_forall; intros row _; apply reindex_length.
  - cbn [pd_concat columns]. intros H. apply app_eq_nil in H. destruct H as [H _].
    unfold empty in Hne. rewrite H in Hne. discriminate.
Qed.

Lemma realigned_again (done : list DataFrame) (middle target : list string) :
  Forall (fun s => data s <> [] -> incl (columns s) middle) done ->
  map (reindex middle target) (flat_map (realigned middle) done) =
  flat_map (realigned target) done.
Proof.
  induction 1 as [|s done Hs _ IH]; cbn [flat_map]; [reflexivity |].
  rewrite map_app, IH. f_equal.
  unfold realigned. rewrite map_map.
  destruct (data s) as [|row rows] eqn:E; [reflexivity |].
  apply map_ext. intros r. apply reindex_reindex. apply Hs. discriminate.
Qed.

Lemma holds_accumulate (done : list DataFrame) (df s : DataFrame) :
  holds done df -> well_formed s -> holds (done ++ [s]) (accumulate df s).
Proof.
  intros (Hwf & Hdata & Hincl) Hs. unfold accumulate.
  destruct (empty df) eqn:He.
  - pose proof (empty_well_formed_no_rows df Hwf He) as Hnil.
    rewrite Hnil in Hdata. symmetry in Hdata.
    apply flat_map_realigned_nil in Hdata.
    split; [exact Hs | split].
    + rewrite flat_map_app. cbn [flat_map]. rewrite app_nil_r.
      rewrite (proj2 (flat_map_realigned_nil (columns s) done) Hdata).
      rewrite realigned_own_columns by exact Hs. reflexivity.
    + apply Forall_app. split.
      * eapply Forall_impl; [| exact Hdata]. cbv beta. intros s0 E Hne. contradiction.
      * constructor; [intros _; apply incl_refl | constructor].
  - split; [apply pd_concat_well_formed; assumption | split].
    + rewrite flat_map_app. cbn [flat_map]. rewrite app_nil_r.
      rewrite <- (realigned_again done (columns df) _ Hincl), <- Hdata.
      reflexivity.
    + apply Forall_app. split.
      * eapply Forall_impl; [| exact Hincl]. cbv beta. intros s0 H0 Hne c Hc.
        apply pd_concat_columns_In. left. exact (H0 Hne c Hc).
      * constructor; [| constructor].
        intros _ c Hc. apply pd_concat_columns_In. right. exact Hc.
Qed.

Lemma holds_fold (subs done : list DataFrame) (df : DataFrame) :
  holds done df -> Forall well_formed subs ->
  holds (done ++ subs) (fold_left accumulate subs df).
Proof.
  revert done df. induction subs as [|s subs IH]; intros done df H Hsubs.
  - rewrite app_nil_r. exact H.
  - inversion Hsubs as [|? ? Hs Hsubs']; subst. cbn [fold_left].
    replace (done ++ s :: subs) with ((done ++ [s]) ++ subs)
      by (rewrite <- app_assoc; reflexivity).
    apply IH; [apply holds_accumulate; assumption | exact Hsubs'].
Qed.

(** With one column list throughout, the accumulated frame has it. *)
Lemma accumulate_same_columns (cols : list string) (subs : list DataFrame)
    (df : DataFrame) :
  df = DataFrame_new \/ columns df = cols ->
  Forall (fun s => columns s = cols) subs ->
  fold_left accumulate subs df = DataFrame_new \/
  columns (fold_left accumulate subs df) = cols.
Proof.
  revert df. induction subs as [|s subs IH]; intros df Hdf Hsubs; [exact Hdf |].
  inversion Hsubs as [|? ? Hs Hsubs']; subst. cbn [fold_left].
  apply IH; [| exact Hsubs']. right. unfold accumulate.
  destruct (empty df) eqn:He; [reflexivity |].
  destruct Hdf as [-> | Hdf]; [discriminate He |].
  cbn [pd_concat columns]. rewrite Hdf, new_columns_none. apply app_nil_r.
Qed.

(** ** The columns in first-seen order *)

Lemma keep_first_ext (seen seen' l : list string) :
  (forall c, mem c seen = mem c seen') -> keep_first seen l = keep_first seen' l.
Proof.
  revert seen seen'. induction l as [|c l IH]; intros seen seen' H; cbn [keep_first].
  - reflexivity.
  - rewrite <- (H c). destruct (mem c seen).
    + apply IH. exact H.
    + f_equal. apply IH. intros x. unfold mem. cbn [existsb]. f_equal. apply H.
Qed.

Lemma mem_app (c : string) (l1 l2 : list string) :
  mem c (l1 ++ l2) = mem c l1 || mem c l2.
Proof. unfold mem. apply existsb_app. Qed.

Lemma mem_cons (c x : string) (l : list string) :
  mem c (x :: l) = String.eqb c x || mem c l.
Proof. reflexivity. Qed.

Lemma keep_first_app (seen a b : list string) :
  keep_first seen (a ++ b) = keep_first seen a ++ keep_first (a ++ seen) b.
Proof.
  revert seen. induction a as [|c a IH]; intros seen; cbn [app keep_first].
  - reflexivity.
  - destruct (mem c seen) eqn:E.
    + rewrite IH. f_equal. apply keep_first_ext. intros x.
      rewrite mem_cons, !mem_app.
      destruct (String.eqb_spec x c) as [-> | _]; cbn [orb]; [| reflexivity].
      rewrite E. apply orb_true_r.
    + rewrite IH. cbn [app]. f_equal. f_equal. apply keep_first_ext. intros x.
      rewrite mem_cons, !mem_app, mem_cons.
      destruct (String.eqb x c), (mem x a), (mem x seen); reflexivity.
Qed.

Lemma keep_first_NoDup (seen l : list string) :
  NoDup l -> keep_first seen l = List.filter (fun c => negb (mem c seen)) l.
Proof.
  intros H. revert seen. induction H as [|c l Hc _ IH]; intros seen;
    cbn [keep_first List.filter]; [reflexivity |].
  destruct (mem c seen) eqn:E; cbn [negb]; [apply IH |].
  f_equal. rewrite IH. apply filter_ext_in. intros x Hx.
  unfold mem. cbn [existsb].
  destruct (String.eqb_spec x c) as [-> | _]; [contradiction | reflexivity].
Qed.

Lemma In_keep_first (seen l : list string) (c : string) :
  In c (keep_first seen l) <-> In c l /\ ~ In c seen.
Proof.
  revert seen. induction l as [|x l IH]; intros seen; cbn [keep_first].
  - split; [intros [] | intros [[] _]].
  - destruct (mem x seen) eqn:E.
    + rewrite IH. apply mem_In in E. split.
      * intros [H1 H2]. split; [right; exact H1 | exact H2].
      * intros [[-> | H1] H2]; [contradiction | auto].
    + pose proof (mem_false_not_In x seen E) as Hx.
      cbn [In]. rewrite IH. cbn [In]. split.
      * intros [-> | [H1 H2]]; [auto | split; [right; exact H1 | tauto]].
      * intros [[-> | H1] H2]; [left; reflexivity |].
        destruct (string_dec x c) as [-> | Hne]; [left; reflexivity |].
        right. split; [exact H1 | intros [H | H]; [congruence | contradiction]].
Qed.

Lemma mem_first_seen (c : string) (l : list string) :
  mem c (first_seen l) = mem c l.
Proof.
  destruct (mem c l) eqn:E.
  - apply mem_In. apply In_keep_first. apply mem_In in E. split; [exact E | intros []].
  - destruct (mem c (first_seen l)) eqn:E'; [| reflexivity].
    apply mem_In in E'. apply In_keep_first in E'. destruct E' as [H _].
    apply mem_In in H. congruence.
Qed.

(** One more frame: its new columns after the ones seen so far. *)
Lemma first_seen_app (l cols : list string) :
  NoDup cols ->
  first_seen (l ++ cols) =
  first_seen l ++ List.filter (fun c => negb (mem c (first_seen l))) cols.
Proof.
  intros H. unfold first_seen at 1. rewrite keep_first_app, app_nil_r.
  fold (first_seen l). f_equal.
  rewrite (keep_first_NoDup l cols H). apply filter_ext. intros c.
  rewrite mem_first_seen. reflexivity.
Qed.

Lemma first_seen_NoDup (cols : list string) : NoDup cols -> first_seen cols = cols.
Proof.
  intros H. unfold first_seen. rewrite (keep_first_NoDup [] cols H).
  induction cols as [|c cols IH]; cbn [List.filter mem existsb negb]; [reflexivity |].
  inversion H; subst. f_equal. apply IH. assumption.
Qed.

Lemma pd_concat_not_empty (df s : DataFrame) :
  empty df = false -> empty (pd_concat df s) = false.
Proof.
  unfold empty. cbn [pd_concat columns data]. intros H.
  apply orb_false_iff in H. destruct H as [Hc Hd].
  rewrite length_app, length_app, length_map.
  destruct (List.length (columns df)); [discriminate |].
  destruct (List.length (data df)); [discriminate |]. reflexivity.
Qed.

(** Once the accumulated frame is not empty every further sub-frame is
    concatenated, and the columns grow in first-seen order. *)
Lemma fold_accumulate_columns (rest done : list DataFrame) (df : DataFrame) :
  empty df = false ->
  columns df = first_seen (List.concat (map columns done)) ->
  Forall well_formed rest ->
  columns (fold_left accumulate rest df) =
  first_seen (List.concat (map columns (done ++ rest))).
Proof.
  revert done df. induction rest as [|s rest IH]; intros done df Hne Hcols Hwf;
    cbn [fold_left].
  - rewrite app_nil_r. exact Hcols.
  - inversion Hwf as [|? ? Hs Hrest]; subst.
    replace (done ++ s :: rest) with ((done ++ [s]) ++ rest)
      by (rewrite <- app_assoc; reflexivity).
    apply IH; [| | exact Hrest]; unfold accumulate; rewrite Hne.
    + apply pd_concat_not_empty. exact Hne.
    + cbn [pd_concat columns].
      rewrite map_app, concat_app. cbn [map List.concat]. rewrite app_nil_r.
      rewrite (first_seen_app _ _ (proj1 Hs)), <- Hcols. reflexivity.
Qed.

(** Sub-frames that are empty leave no trace once a sub-frame follows. *)
Lemma fold_accumulate_skips_empty (empties rest : list DataFrame) (s1 df : DataFrame) :
  empty df = true ->
  Forall (fun s => empty s = true) empties ->
  fold_left accumulate (empties ++ s1 :: rest) df = fold_left accumulate rest s1.
Proof.
  intros Hdf H. revert df Hdf.
  induction H as [|e empties He _ IH]; intros df Hdf; cbn [app fold_left];
    unfold accumulate at 2; rewrite Hdf.
  - reflexivity.
  - apply IH. exact He.
Qed.

(** ** The loop *)

Section Loop.

(** The remote service together with the decoding of its answers. *)
Variable post : Payload -> result DataFrame.

(** When every request succeeds the loop folds [accumulate] over the
    sub-frames in request order. *)
Lemma fetch_loop_fold (queries : list Payload) (subs : list DataFrame) (df : DataFrame) :
  Forall2 (fun q s => post q = Ok s) queries subs ->
  fetch_loop post queries df = Ok (fold_left accumulate subs df).
Proof.
  intros H. revert df.
  induction H as [|q s queries subs Hq _ IH]; intros df; cbn [fetch_loop fold_left].
  - reflexivity.
  - rewrite Hq. cbn [bind]. apply IH.
Qed.

(** The first failing request ends the loop with its exception. *)
Lemma fetch_loop_raise (done rest : list Payload) (q : Payload) (e : exception)
    (df : DataFrame) :
  Forall (fun q' => exists s, post q' = Ok s) done ->
  post q = Raise e ->
  fetch_loop post (done ++ q :: rest) df = Raise e.
Proof.
  intros H Hq. revert df.
  induction H as [|q' done [s Hs] _ IH]; intros df; cbn [app fetch_loop].
  - rewrite Hq. reflexivity.
  - rewrite Hs. cbn [bind]. apply IH.
Qed.

(** C7: when the requests succeed, the loop of [read_table] yields a frame
    whose rows are the rows of the sub-frames S1, S2, S3, ... in request
    order, each row under the columns of the result; when the sub-frames
    have the same columns the rows are S1's followed by S2's followed by
    S3's verbatim.  No row is dropped, moved or merged, and a sub-frame
    without rows adds nothing. *)
Theorem assembly_preserves_order (queries : list Payload) (subs : list DataFrame) :
  Forall2 (fun q s => post q = Ok s) queries subs ->
  Forall well_formed subs ->
  exists df,
    fetch_loop post queries DataFrame_new = Ok df /\
    data df = flat_map (realigned (columns df)) subs /\
    (forall cols, Forall (fun s => columns s = cols) subs ->
                  data df = List.concat (map data subs)).
Proof.
  intros Hpost Hwf.
  exists (fold_left accumulate subs DataFrame_new).
  split; [apply fetch_loop_fold; exact Hpost |].
  destruct (holds_fold subs [] DataFrame_new holds_new Hwf) as (_ & Hdata & _).
  cbn [app] in Hdata. split; [exact Hdata |].
  intros cols Hcols.
  destruct (accumulate_same_columns cols subs DataFrame_new (or_introl eq_refl) Hcols)
    as [E | E].
  - rewrite E in Hdata |- *. cbn [DataFrame_new data columns] in Hdata |- *.
    symmetry in Hdata. apply flat_map_realigned_nil in Hdata.
    clear - Hdata. induction Hdata as [|s subs Hs _ IH]; cbn [map List.concat].
    + reflexivity.
    + rewrite Hs, <- IH. reflexivity.
  - rewrite Hdata, E. clear - Hwf Hcols.
    induction Hwf as [|s subs Hs _ IH]; cbn [flat_map map List.concat].
    + reflexivity.
    + inversion Hcols as [|? ? Hc Hcols']; subst.
      rewrite (realigned_own_columns s Hs), (IH Hcols'). reflexivity.
Qed.

(** C8, amended: the assembly does not compare schemas and raises nothing
    of its own.  Whatever the column sets of the sub-frames that follow the
    first non-empty one (empty ones before it leave no trace), the loop
    yields one frame: its columns are the columns of these sub-frames in
    first-seen order, its rows are their rows in order, and each row has,
    under every column, its own cell where its sub-frame has the column and
    [NaN] where it lacks it. *)
Theorem mismatch_yields_union (queries : list Payload)
    (empties rest : list DataFrame) (s1 : DataFrame) :
  Forall2 (fun q s => post q = Ok s) queries (empties ++ s1 :: rest) ->
  Forall well_formed (empties ++ s1 :: rest) ->
  Forall (fun s => empty s = true) empties ->
  empty s1 = false ->
  exists df,
    fetch_loop post queries DataFrame_new = Ok df /\
    columns df = first_seen (List.concat (map columns (s1 :: rest))) /\
    (forall c, In c (columns df) <-> exists s, In s (s1 :: rest) /\ In c (columns s)) /\
    data df = flat_map (realigned (columns df)) (s1 :: rest) /\
    (forall s row c,
        In s (s1 :: rest) -> In row (data s) ->
        lookup_cell c (columns df) (reindex (columns s) (columns df) row) =
        if mem c (columns s) then lookup_cell c (columns s) row else NaN).
Proof.
  intros Hpost Hwf Hempties Hne.
  exists (fold_left accumulate (empties ++ s1 :: rest) DataFrame_new).
  split; [apply fetch_loop_fold; exact Hpost |].
  rewrite (fold_accumulate_skips_empty empties rest s1 DataFrame_new eq_refl Hempties).
  apply Forall_app in Hwf. destruct Hwf as [_ Hwf].
  inversion Hwf as [|? ? Hs1 Hrest]; subst.
  assert (Hcols : columns (fold_left accumulate rest s1) =
                  first_seen (List.concat (map columns (s1 :: rest)))).
  { apply (fold_accumulate_columns rest [s1] s1 Hne); [| exact Hrest].
    cbn [map List.concat]. rewrite app_nil_r. symmetry.
    apply first_seen_NoDup. exact (proj1 Hs1). }
  assert (Hholds : holds ([s1] ++ rest) (fold_left accumulate rest s1)).
  { apply holds_fold; [| exact Hrest].
    split; [exact Hs1 | split].
    - cbn [flat_map]. rewrite app_nil_r. symmetry. apply realigned_own_columns.
      exact Hs1.
    - constructor; [intros _; apply incl_refl | constructor]. }
  cbn [app] in Hholds. destruct Hholds as (_ & Hdata & Hincl).
  split; [exact Hcols |]. split; [| split; [exact Hdata |]].
  - intros c. rewrite Hcols. unfold first_seen. rewrite In_keep_first.
    rewrite in_concat. split.
    + intros [(cols & Hin & Hc) _]. apply in_map_iff in Hin.
      destruct Hin as (s & <- & Hs). exists s. auto.
    + intros (s & Hs & Hc). split; [| intros []].
      exists (columns s). split; [apply in_map; exact Hs | exact Hc].
  - intros s row c Hs Hrow.
    rewrite Forall_forall in Hincl.
    assert (Hsub : incl (columns s) (columns (fold_left accumulate rest s1))).
    { apply (Hincl s Hs). intros E. rewrite E in Hrow. destruct Hrow. }
    destruct (in_dec string_dec c (columns (fold_left accumulate rest s1)))
      as [Hin | Hout].
    + unfold reindex.
      rewrite (lookup_cell_map c _ (fun c' => lookup_cell c' (columns s) row) Hin).
      destruct (mem c (columns s)) eqn:E; [reflexivity |].
      apply lookup_cell_absent, mem_false_not_In. exact E.
    + rewrite (lookup_cell_absent c _ _ Hout).
      destruct (mem c (columns s)) eqn:E; [| reflexivity].
      apply mem_In in E. exfalso. apply Hout, Hsub, E.
Qed.

End Loop.

Lemma two_columns_well_formed (a b : string) (rows : list (list cell)) :
  a <> b ->
  Forall (fun row => List.length row = 2%nat) rows ->
  well_formed {| columns := [a; b]; data := rows |}.
Proof.
  intros Hab Hrows. split; [| split].
  - constructor; [intros [E | []]; congruence |].
    constructor; [intros [] | constructor].
  - exact Hrows.
  - discriminate.
Qed.

Lemma assembly_preserves_order_witness :
  exists df,
    fetch_loop three_answers [[]; region_payload; region_payload ++ year_payload]
               DataFrame_new = Ok df /\
    data df = flat_map (realigned (columns df)) [first_rows; no_rows; last_rows] /\
    (forall cols,
        Forall (fun s => columns s = cols) [first_rows; no_rows; last_rows] ->
        data df = List.concat (map data [first_rows; no_rows; last_rows])).
Proof.
  apply (assembly_preserves_order three_answers).
  - repeat constructor.
  - repeat (constructor;
            [apply two_columns_well_formed; [discriminate | repeat constructor] |]).
    constructor.
Defined.

(** C8 as stated fails on two sub-frames with different column sets: the
    loop raises nothing and yields one frame over the three columns, the
    cells either sub-frame lacks filled with [NaN]. *)
Lemma mismatched_columns_are_merged :
  ~ (forall c, In c (columns by_year) <-> In c (columns by_region)) /\
  fetch_loop two_schemas [region_payload; year_payload] DataFrame_new =
    Ok {| columns := ["region"; "value"; "year"];
          data := [[Value "0301"; Value "10"; NaN];
                   [NaN; Value "20"; Value "2020"]] |} /\
  fetch_loop two_schemas [region_payload; year_payload] DataFrame_new <>
    Raise SchemaMismatchError.
Proof.
  split; [| split].
  - intros H. destruct (proj1 (H "year")) as [E | [E | []]];
      [left; reflexivity | discriminate E | discriminate E].
  - vm_compute. reflexivity.
  - vm_compute. discriminate.
Qed.

Lemma mismatch_yields_union_witness :
  exists df,
    fetch_loop two_schemas [region_payload; year_payload] DataFrame_new = Ok df /\
    columns df = first_seen (List.concat (map columns [by_region; by_year])) /\
    (forall c, In c (columns df) <->
               exists s, In s [by_region; by_year] /\ In c (columns s)) /\
    data df = flat_map (realigned (columns df)) [by_region; by_year] /\
    (forall s row c,
        In s [by_region; by_year] -> In row (data s) ->
        lookup_cell c (columns df) (reindex (columns s) (columns df) row) =
        if mem c (columns s) then lookup_cell c (columns s) row else NaN).
Proof.
  apply (mismatch_yields_union two_schemas [region_payload; year_payload]
           [] [by_year] by_region).
  - repeat constructor.
  - repeat (constructor;
            [apply two_columns_well_formed; [discriminate | repeat constructor] |]).
    constructor.
  - constructor.
  - reflexivity.
Defined.

(** * Building the dimensions *)

Lemma build_variables_complete (variables : list Dimension) :
  build_variables (map descriptor_of variables) = Ok variables.
Proof.
  induction variables as [|v variables IH]; cbn [map build_variables].
  - reflexivity.
  - cbn [descriptor_of d_code d_values subscript bind]. rewrite IH. cbn [bind].
    destruct v; reflexivity.
Qed.

Lemma build_variables_lacking (ds : list Descriptor) :
  Exists lacks_key ds -> build_variables ds = Raise KeyError.
Proof.
  induction 1 as [d ds [Hd | Hd] | d ds _ IH]; cbn [build_variables].
  - rewrite Hd. reflexivity.
  - rewrite Hd. destruct (d_code d); reflexivity.
  - rewrite IH.
    destruct (d_code d); [| reflexivity].
    destruct (d_values d); reflexivity.
Qed.

(** C9 as stated fails on a descriptor with an empty value list: the
    dimension is built, the query is sent and the read returns the frame;
    and a descriptor without a code raises [KeyError], not [MetadataError]. *)
Lemma empty_value_list_is_accepted :
  build_variables [ {| d_code := Some "x"; d_values := Some [] |} ] =
    Ok [ {| code := "x"; values := [] |} ] /\
  read_table 1 (Ok {| m_variables := Some [ {| d_code := Some "x"; d_values := Some [] |} ] |})
             (fun _ => Ok by_region) = Ok by_region /\
  build_variables [ {| d_code := None; d_values := Some ["a"] |} ] <>
    Raise MetadataError.
Proof.
  split; [reflexivity | split; [vm_compute; reflexivity | discriminate]].
Qed.

(** C9, amended: building the dimensions raises [KeyError] if a variable
    descriptor lacks its code or its values; [read_table] ends with that
    error whatever the service would answer.  Descriptors that carry both
    keys are turned into the dimensions as they are, an empty value list
    included. *)
Theorem build_variables_checks_keys_only (ds : list Descriptor) :
  (Exists lacks_key ds ->
   build_variables ds = Raise KeyError /\
   forall fuel post,
     read_table fuel (Ok {| m_variables := Some ds |}) post = Raise KeyError) /\
  (forall variables,
     ds = map descriptor_of variables -> build_variables ds = Ok variables).
Proof.
  split.
  - intros H. pose proof (build_variables_lacking ds H) as E.
    split; [exact E |]. intros fuel post.
    unfold read_table. cbn [bind m_variables subscript]. rewrite E. reflexivity.
  - intros variables ->. apply build_variables_complete.
Qed.

Lemma build_variables_checks_keys_only_witness :
  (build_variables [ {| d_code := Some "x"; d_values := Some ["a"] |};
                     {| d_code := None; d_values := Some ["b"] |} ] = Raise KeyError /\
   forall fuel post,
     read_table fuel
       (Ok {| m_variables := Some [ {| d_code := Some "x"; d_values := Some ["a"] |};
                                    {| d_code := None; d_values := Some ["b"] |} ] |})
       post = Raise KeyError) /\
  build_variables [ {| d_code := Some "x"; d_values := Some [] |} ] =
    Ok [ {| code := "x"; values := [] |} ].
Proof.
  split.
  - apply (proj1 (build_variables_checks_keys_only _)).
    right. left. left. reflexivity.
  - apply (proj2 (build_variables_checks_keys_only _)). reflexivity.
Defined.

(** * Further properties of the partitioner *)

(** ** The cardinality *)

(** X1: [_count_combinations] is the number of cells of the cross-product
    of the value lists. *)
Theorem count_is_number_of_cells (variables : Query) :
  _count_combinations variables = Z.of_nat (List.length (cells variables)).
Proof.
  induction variables as [|d q IH].
  - reflexivity.
  - rewrite count_cons, IH. cbn [cells]. unfold len.
    induction (values d) as [|v vs IHv]; cbn [flat_map List.length].
    + reflexivity.
    + rewrite length_app, length_map. lia.
Qed.

(** X2: the cardinality is 0 exactly when some dimension has no value, and
    at least 1 otherwise; it is never negative. *)
Theorem count_zero_iff_empty_dimension (variables : Query) :
  (_count_combinations variables = 0 <-> Exists (fun d => values d = []) variables) /\
  (Forall (fun d => values d <> []) variables -> 1 <= _count_combinations variables) /\
  0 <= _count_combinations variables.
Proof.
  split; [| split].
  - induction variables as [|d q IH].
    + rewrite count_nil. split; [discriminate | intros H; inversion H].
    + rewrite count_cons. split.
      * intros H. apply Z.mul_eq_0 in H. destruct H as [H | H].
        -- left. unfold len in H. destruct (values d); [reflexivity | discriminate H].
        -- right. apply IH. exact H.
      * intros H. inversion H as [? ? Hd | ? ? Hq]; subst.
        -- rewrite Hd. reflexivity.
        -- rewrite (proj2 IH Hq). lia.
  - induction 1 as [|d q Hd _ IH].
    + rewrite count_nil. lia.
    + rewrite count_cons.
      assert (1 <= len (values d))
        by (unfold len; destruct (values d); [congruence | cbn [List.length]; lia]).
      nia.
  - apply count_nonneg.
Qed.

Lemma count_zero_iff_empty_dimension_witness :
  1 <= _count_combinations [ {| code := "x"; values := ["a"; "b"] |} ].
Proof.
  apply (proj1 (proj2 (count_zero_iff_empty_dimension _))).
  constructor; [discriminate | constructor].
Defined.

(** X3: the cardinality does not depend on the order of the dimensions. *)
Theorem count_permutation (q q' : Query) :
  Permutation q q' -> _count_combinations q = _count_combinations q'.
Proof.
  induction 1 as [| d q q' _ IH | d d' q | q q' q'' _ IH1 _ IH2].
  - reflexivity.
  - rewrite !count_cons, IH. reflexivity.
  - rewrite !count_cons. lia.
  - congruence.
Qed.

Lemma count_permutation_witness :
  _count_combinations [ {| code := "x"; values := ["a"; "b"] |};
                        {| code := "y"; values := ["c"] |} ] =
  _count_combinations [ {| code := "y"; values := ["c"] |};
                        {| code := "x"; values := ["a"; "b"] |} ].
Proof.
  apply count_permutation. apply perm_swap.
Defined.

(** ** What the returned queries are made of *)

Lemma segment_of_refl (vs : list string) : segment_of vs vs.
Proof. exists 0%nat, (List.length vs). cbn [skipn]. symmetry. apply firstn_all. Qed.

Lemma segment_of_firstn (k : nat) (vs : list string) : segment_of (firstn k vs) vs.
Proof. exists 0%nat, k. reflexivity. Qed.

Lemma segment_of_skipn (k : nat) (vs : list string) : segment_of (skipn k vs) vs.
Proof. exists k, (List.length (skipn k vs)). symmetry. apply firstn_all. Qed.

Lemma segment_of_trans (p q r : list string) :
  segment_of p q -> segment_of q r -> segment_of p r.
Proof.
  intros (k & n & ->) (k' & n' & ->).
  exists (k + k')%nat, (Nat.min n (n' - k)).
  rewrite skipn_firstn_comm, firstn_firstn, skipn_skipn. reflexivity.
Qed.

Lemma restricts_refl (q : Query) : restricts q q.
Proof.
  induction q as [|d q IH]; constructor; [| exact IH].
  split; [reflexivity | apply segment_of_refl].
Qed.

Lemma restricts_trans (q1 q2 q3 : Query) :
  restricts q1 q2 -> restricts q2 q3 -> restricts q1 q3.
Proof.
  intros H12. revert q3.
  induction H12 as [|d1 d2 q1 q2 [Hc Hs] _ IH]; intros q3 H23;
    inversion H23 as [|? d3 ? q3' [Hc' Hs'] H23']; subst; constructor.
  - split; [congruence | exact (segment_of_trans _ _ _ Hs Hs')].
  - apply IH. exact H23'.
Qed.

Lemma restricts_codes (q' q : Query) : restricts q' q -> map code q' = map code q.
Proof.
  induction 1 as [|d' d q' q [Hc _] _ IH]; cbn [map]; [reflexivity |].
  rewrite Hc, IH. reflexivity.
Qed.

Lemma sub_query_restricts (largest : Dimension) (p : list string) (q : Query) :
  segment_of p (values largest) -> restricts (sub_query largest p q) q.
Proof.
  intros Hp. unfold sub_query.
  induction q as [|v q IH]; cbn [map]; constructor; [| exact IH].
  cbn [code values]. split; [reflexivity |].
  destruct (Dimension_eqb v largest) eqn:E.
  - apply Dimension_eqb_eq in E. subst v. exact Hp.
  - apply segment_of_refl.
Qed.

(** Replacing the selected values by themselves changes nothing. *)
Lemma sub_query_same_values (largest : Dimension) (q : Query) :
  sub_query largest (values largest) q = q.
Proof.
  unfold sub_query. induction q as [|v q IH]; cbn [map]; [reflexivity |].
  rewrite IH. f_equal.
  destruct (Dimension_eqb v largest) eqn:E.
  - apply Dimension_eqb_eq in E. subst v. destruct largest; reflexivity.
  - destruct v; reflexivity.
Qed.

(** X4: the partitioner raises nothing but [RecursionError], and it raises
    only on a query whose cardinality exceeds the cap; [max] is never applied
    to an empty list. *)
Theorem partitioner_raises_only_RecursionError (fuel : nat) (variables : Query)
    (e : exception) :
  _recursive_split (S fuel) variables = Raise e ->
  e = RecursionError /\ CAP < _count_combinations variables /\ variables <> [].
Proof.
  intros H. split; [exact (_recursive_split_Raise _ _ _ H) |].
  destruct (Z.leb_spec (_count_combinations variables) CAP) as [Hle | Hgt].
  - rewrite _recursive_split_leaf in H by exact Hle. discriminate.
  - split; [exact Hgt | exact (over_cap_nonempty _ Hgt)].
Qed.

Lemma partitioner_raises_only_RecursionError_witness :
  RecursionError = RecursionError /\
  CAP < _count_combinations (degenerate_query ["x"]) /\
  degenerate_query ["x"] <> [].
Proof.
  apply (partitioner_raises_only_RecursionError 3 (degenerate_query ["x"])).
  vm_compute. reflexivity.
Defined.

(** X5: whatever the input, a returned list holds at least one query, and
    every query in it has the codes of the input in the same order, each
    value list a slice of the input's value list for that dimension. *)
Theorem returned_queries_restrict_input (fuel : nat) (variables : Query)
    (qs : list Query) :
  _recursive_split fuel variables = Ok qs ->
  qs <> [] /\
  Forall (fun q => map code q = map code variables /\ restricts q variables) qs.
Proof.
  revert variables qs.
  induction fuel as [|fuel IH]; intros variables qs H; [discriminate |].
  returning_activation H.
  - split; [discriminate |].
    constructor; [| constructor]. split; [reflexivity | apply restricts_refl].
  - destruct (IH _ _ H1) as [Hne1 HF1]. destruct (IH _ _ H2) as [_ HF2].
    split.
    + intros Happ. apply app_eq_nil in Happ. destruct Happ as [E1 _]. contradiction.
    + apply Forall_app. split.
      * eapply Forall_impl; [| exact HF1]. cbv beta. intros q [_ Hq].
        assert (Hr : restricts q variables).
        { eapply restricts_trans; [exact Hq |].
          apply sub_query_restricts, segment_of_firstn. }
        split; [apply restricts_codes; exact Hr | exact Hr].
      * eapply Forall_impl; [| exact HF2]. cbv beta. intros q [_ Hq].
        assert (Hr : restricts q variables).
        { eapply restricts_trans; [exact Hq |].
          apply sub_query_restricts, segment_of_skipn. }
        split; [apply restricts_codes; exact Hr | exact Hr].
Qed.

Lemma returned_queries_restrict_input_witness :
  [skewed_query ["x"]; skewed_query ["y"]] <> [] /\
  Forall (fun q => map code q = map code (skewed_query ["x"; "y"]) /\
                   restricts q (skewed_query ["x"; "y"]))
         [skewed_query ["x"]; skewed_query ["y"]].
Proof.
  apply (returned_queries_restrict_input 2).
  vm_compute. reflexivity.
Defined.

(** ** The queries on which the partitioner cannot return *)

Lemma selection_of_one_value_loops (variables : Query) (d : Dimension) :
  CAP < _count_combinations variables ->
  max_by_values variables = Ok d ->
  (List.length (values d) <= 1)%nat ->
  forall fuel, _recursive_split fuel variables = Raise RecursionError.
Proof.
  intros Hc E Hlen fuel.
  assert (Hsecond : skipn (split_index d) (values d) = values d).
  { unfold split_index.
    destruct (values d) as [|v [|w vs]]; [reflexivity | reflexivity |].
    cbn [List.length] in Hlen. lia. }
  induction fuel as [|fuel IH]; [reflexivity |].
  rewrite (_recursive_split_node fuel variables d Hc E).
  rewrite Hsecond, sub_query_same_values, IH.
  destruct (_recursive_split fuel
              (sub_query d (firstn (split_index d) (values d)) variables))
    as [r1 | e] eqn:E1.
  - reflexivity.
  - rewrite (_recursive_split_Raise _ _ _ E1). reflexivity.
Qed.

(** X6: when the cardinality exceeds the cap and the selected dimension has
    at most one value, the second half is the query itself and no recursion
    limit is enough: every call ends in [RecursionError].  Conversely, a
    call that returns has selected a dimension of at least two values. *)
Theorem single_valued_selection_never_returns (variables : Query) (d : Dimension) :
  CAP < _count_combinations variables ->
  max_by_values variables = Ok d ->
  ((List.length (values d) <= 1)%nat ->
   forall fuel, _recursive_split fuel variables = Raise RecursionError) /\
  (forall fuel qs, _recursive_split fuel variables = Ok qs ->
                   (2 <= List.length (values d))%nat).
Proof.
  intros Hc E. split.
  - apply selection_of_one_value_loops; assumption.
  - intros fuel qs H.
    destruct (Nat.le_gt_cases (List.length (values d)) 1) as [Hle | Hgt]; [| lia].
    rewrite (selection_of_one_value_loops variables d Hc E Hle fuel) in H.
    discriminate.
Qed.

Lemma single_valued_selection_never_returns_witness :
  _recursive_split 1000 (degenerate_query ["x"]) = Raise RecursionError.
Proof.
  apply (proj1 (single_valued_selection_never_returns
                  (degenerate_query ["x"]) {| code := "z"; values := ["x"] |}
                  ltac:(vm_compute; reflexivity) ltac:(vm_compute; reflexivity))).
  cbn [values List.length]. lia.
Defined.

(** ** Recursion depth and number of sub-queries *)

Lemma halvings_middle (pre post : Query) (d : Dimension) :
  halvings (pre ++ d :: post) =
  (halvings pre + Nat.log2_up (List.length (values d)) + halvings post)%nat.
Proof.
  unfold halvings. rewrite map_app, list_sum_app.
  cbn [map]. unfold list_sum. cbn [fold_right]. lia.
Qed.

(** A half of at least two values admits one halving less. *)
Lemma log2_up_half (L L' : nat) :
  (2 <= L)%nat -> (L' <= L - L / 2)%nat ->
  (S (Nat.log2_up L') <= Nat.log2_up L)%nat.
Proof.
  intros HL HL'.
  destruct (Nat.log2_up_spec L ltac:(lia)) as [_ Hup].
  pose proof (Nat.log2_up_pos L ltac:(lia)) as Hpos.
  destruct (Nat.log2_up L) as [|k]; [lia |].
  rewrite Nat.pow_succ_r' in Hup.
  apply le_n_S.
  destruct L' as [|L']; [cbn; lia |].
  apply Nat.log2_up_le_pow2; [lia |].
  pose proof (Nat.div_mod_eq L 2) as Hdiv.
  pose proof (Nat.mod_upper_bound L 2 ltac:(lia)) as Hmod.
  lia.
Qed.

(** X7: on a query with distinct codes in which every dimension alone can
    bring the cardinality under the cap, the partitioner returns, within a
    recursion depth of one plus the number of halvings the value lists
    admit; what it returns is a partition: queries within the cap, whose
    cardinalities sum to the input's and whose cells are the input's. *)
Theorem partitioner_returns_within_depth (variables : Query) :
  NoDup (map code variables) ->
  one_dimension_suffices variables ->
  exists qs,
    _recursive_split (S (halvings variables)) variables = Ok qs /\
    Forall (fun q => _count_combinations q <= CAP) qs /\
    total_cardinality qs = _count_combinations variables /\
    Permutation (cells variables) (flat_map cells qs).
Proof.
  intros Hcodes Hone.
  assert (Hret : exists qs, _recursive_split (S (halvings variables)) variables = Ok qs).
  { remember (halvings variables) as n eqn:Hn.
    assert (Hle : (halvings variables <= n)%nat) by lia. clear Hn.
    revert variables Hcodes Hone Hle.
    induction n as [|n IH]; intros variables Hcodes Hone Hle;
      destruct (Z.leb_spec (_count_combinations variables) CAP) as [Hc | Hc];
      try (exists [variables]; apply _recursive_split_leaf; exact Hc);
      destruct (max_by_values_nonempty variables (over_cap_nonempty _ Hc)) as [d E];
      destruct (in_split _ _ (max_by_values_In _ _ E)) as (pre & post & ->);
      pose proof (selected_has_two_values pre post d Hc Hone) as Htwo;
      pose proof (Nat.log2_up_pos (List.length (values d)) ltac:(lia)) as Hpos;
      rewrite halvings_middle in Hle; [lia |].
    assert (Hk : (1 <= split_index d < List.length (values d))%nat).
    { unfold split_index. split.
      - apply Nat.div_le_lower_bound; lia.
      - apply Nat.Div0.div_lt_upper_bound; lia. }
    destruct (IH (pre ++ with_values d (firstn (split_index d) (values d)) :: post))
      as (r1 & H1).
    { rewrite with_values_codes. exact Hcodes. }
    { apply one_dimension_suffices_half; [lia | rewrite length_firstn; lia | exact Hone]. }
    { rewrite halvings_middle. cbn [with_values values].
      pose proof (log2_up_half (List.length (values d))
                    (List.length (firstn (split_index d) (values d))) Htwo) as Hh.
      rewrite length_firstn in Hh. unfold split_index in Hh, Hk.
      pose proof (Nat.div_mod_eq (List.length (values d)) 2) as Hdiv.
      pose proof (Nat.mod_upper_bound (List.length (values d)) 2 ltac:(lia)) as Hmod.
      rewrite length_firstn. unfold split_index. lia. }
    destruct (IH (pre ++ with_values d (skipn (split_index d) (values d)) :: post))
      as (r2 & H2).
    { rewrite with_values_codes. exact Hcodes. }
    { apply one_dimension_suffices_half; [lia | rewrite length_skipn; lia | exact Hone]. }
    { rewrite halvings_middle. cbn [with_values values].
      pose proof (log2_up_half (List.length (values d))
                    (List.length (skipn (split_index d) (values d))) Htwo) as Hh.
      rewrite length_skipn in Hh. unfold split_index in Hh.
      rewrite length_skipn. unfold split_index. lia. }
    exists (r1 ++ r2).
    rewrite (_recursive_split_node _ _ d Hc E).
    rewrite !sub_query_unique by exact Hcodes.
    rewrite H1. cbn [bind]. rewrite H2. reflexivity. }
  destruct Hret as (qs & H). exists qs. split; [exact H |].
  pose proof (_recursive_split_Bisection _ _ _ Hcodes H) as HB.
  split; [exact (Bisection_cap _ _ HB) |].
  split; [exact (Bisection_total _ _ HB) | exact (Bisection_cells _ _ HB)].
Qed.

Lemma partitioner_returns_within_depth_witness :
  exists qs,
    _recursive_split (S (halvings (skewed_query ["x"; "y"]))) (skewed_query ["x"; "y"])
      = Ok qs /\
    Forall (fun q => _count_combinations q <= CAP) qs /\
    total_cardinality qs = _count_combinations (skewed_query ["x"; "y"]) /\
    Permutation (cells (skewed_query ["x"; "y"])) (flat_map cells qs).
Proof.
  apply partitioner_returns_within_depth.
  - exact skewed_query_codes.
  - repeat (constructor; [vm_compute; discriminate |]). constructor.
Defined.

Lemma Bisection_nonempty (q : Query) (qs : list Query) : Bisection q qs -> qs <> [].
Proof.
  induction 1 as [q Hc | pre d post qs1 qs2 _ _ IH1 _ _]; [discriminate |].
  intros H. apply app_eq_nil in H. destruct H as [H _]. contradiction.
Qed.

Lemma halves_hold_a_third (vs : list string) :
  (2 <= List.length vs)%nat ->
  len vs <= 3 * len (firstn (Nat.div (List.length vs) 2) vs) /\
  len vs <= 3 * len (skipn (Nat.div (List.length vs) 2) vs).
Proof.
  intros H. unfold len. rewrite length_firstn, length_skipn.
  pose proof (Nat.div_mod_eq (List.length vs) 2) as Hdiv.
  pose proof (Nat.mod_upper_bound (List.length vs) 2 ltac:(lia)) as Hmod.
  lia.
Qed.

Lemma count_middle_third (pre post : Query) (d : Dimension) (p : list string) :
  len (values d) <= 3 * len p ->
  _count_combinations (pre ++ d :: post) <=
  3 * _count_combinations (pre ++ with_values d p :: post).
Proof.
  intros H. rewrite !count_middle. cbn [with_values values].
  pose proof (count_nonneg pre) as Hpre. pose proof (count_nonneg post) as Hpost.
  assert (H0 : 0 <= _count_combinations pre * _count_combinations post) by nia.
  nia.
Qed.

(** Every query returned below a query holding more than a third of the cap
    holds more than a third of the cap. *)
Lemma leaves_hold_a_third (fuel : nat) (variables : Query) (qs : list Query) :
  NoDup (map code variables) ->
  _recursive_split fuel variables = Ok qs ->
  CAP < 3 * _count_combinations variables ->
  Forall (fun q => CAP < 3 * _count_combinations q) qs.
Proof.
  revert variables qs.
  induction fuel as [|fuel IH]; intros variables qs Hcodes H Hthird; [discriminate |].
  returning_activation H.
  - constructor; [exact Hthird | constructor].
  - assert (Htwo : (2 <= List.length (values largest))%nat).
    { destruct (Nat.le_gt_cases (List.length (values largest)) 1) as [Hle | Hgt]; [| lia].
      pose proof (selection_of_one_value_loops variables largest Hc E Hle (S fuel)) as HR.
      rewrite (_recursive_split_node fuel variables largest Hc E), H1 in HR.
      cbn [bind] in HR. rewrite H2 in HR. discriminate HR. }
    destruct (halves_hold_a_third _ Htwo) as [Hfirst Hsecond].
    destruct (in_split _ _ (max_by_values_In _ _ E)) as (pre & post & ->).
    rewrite sub_query_unique in H1, H2 by exact Hcodes.
    pose proof (count_middle_third pre post largest _ Hfirst) as T1.
    pose proof (count_middle_third pre post largest _ Hsecond) as T2.
    fold (split_index largest) in T1, T2.
    apply Forall_app. split.
    + refine (IH _ _ _ H1 _); [rewrite with_values_codes; exact Hcodes | lia].
    + refine (IH _ _ _ H2 _); [rewrite with_values_codes; exact Hcodes | lia].
Qed.

Lemma thirds_sum (qs : list Query) :
  Forall (fun q => CAP < 3 * _count_combinations q) qs ->
  CAP * len qs + len qs <= 3 * total_cardinality qs.
Proof.
  unfold total_cardinality, len.
  induction 1 as [|q qs Hq _ IH]; cbn [map fold_right List.length].
  - lia.
  - rewrite Nat2Z.inj_succ. lia.
Qed.

(** X8: with distinct codes, a query over the cap is split into fewer than
    [3 * cardinality / cap] sub-queries: every returned query holds more
    than a third of the cap. *)
Theorem number_of_sub_queries_bounded (fuel : nat) (variables : Query)
    (qs : list Query) :
  NoDup (map code variables) ->
  _recursive_split fuel variables = Ok qs ->
  CAP < _count_combinations variables ->
  Forall (fun q => CAP < 3 * _count_combinations q) qs /\
  CAP * len qs < 3 * _count_combinations variables.
Proof.
  intros Hcodes H Hc.
  assert (Hthird : Forall (fun q => CAP < 3 * _count_combinations q) qs)
    by (apply (leaves_hold_a_third fuel variables qs Hcodes H); unfold CAP in *; lia).
  split; [exact Hthird |].
  pose proof (_recursive_split_Bisection _ _ _ Hcodes H) as HB.
  pose proof (thirds_sum qs Hthird) as Hsum.
  rewrite (Bisection_total _ _ HB) in Hsum.
  pose proof (Bisection_nonempty _ _ HB) as Hne.
  assert (1 <= len qs)
    by (unfold len; destruct qs; [congruence | cbn [List.length]; lia]).
  lia.
Qed.

Lemma number_of_sub_queries_bounded_witness :
  Forall (fun q => CAP < 3 * _count_combinations q)
         [skewed_query ["x"]; skewed_query ["y"]] /\
  CAP * len [skewed_query ["x"]; skewed_query ["y"]] <
  3 * _count_combinations (skewed_query ["x"; "y"]).
Proof.
  apply (number_of_sub_queries_bounded 2).
  - exact skewed_query_codes.
  - vm_compute. reflexivity.
  - vm_compute. reflexivity.
Defined.

(** ** What [max] selects *)

Lemma ascii_compare_refl (a : ascii) : Ascii.compare a a = Eq.
Proof. unfold Ascii.compare. apply N.compare_refl. Qed.

Lemma string_compare_refl (s : string) : String.compare s s = Eq.
Proof.
  induction s as [|a s IH]; cbn [String.compare]; [reflexivity |].
  rewrite ascii_compare_refl. exact IH.
Qed.










(** * The requests of a read *)

Lemma table_metadata_traced_sent {J : Type} (get : string -> result (Response J))
    (table_id : string) :
  table_metadata_traced get table_id =
  ([GET (table_url table_id)], table_metadata get table_id).
Proof.
  unfold table_metadata_traced, table_metadata, client_get, tbind, quiet.
  cbn [fst snd].
  destruct (get (table_url table_id)) as [response | e]; cbn [bind]; [| reflexivity].
  unfold raise_for_status.
  destruct (is_success response); cbn [fst snd bind app]; [| reflexivity].
  destruct (json response); reflexivity.
Qed.

Lemma fetch_loop_traced_outcome (post : string -> Payload -> result DataFrame)
    (url : string) (queries : list Payload) (df : DataFrame) :
  outcome (fetch_loop_traced post url queries df) = fetch_loop (post url) queries df.
Proof.
  revert df. induction queries as [|q rest IH]; intros df; [reflexivity |].
  cbn [fetch_loop_traced fetch_loop]. unfold tbind, client_post, outcome. cbn [fst snd].
  destruct (post url q) as [s | e]; cbn [bind snd]; [apply IH | reflexivity].
Qed.

(** What the loop sends is a POST, to the one URL, for each query of a
    prefix of its queries. *)
Lemma fetch_loop_traced_prefix (post : string -> Payload -> result DataFrame)
    (url : string) (queries : list Payload) (df : DataFrame) :
  exists posted rest,
    queries = posted ++ rest /\
    sent (fetch_loop_traced post url queries df) = map (POST url) posted.
Proof.
  revert df. induction queries as [|q queries IH]; intros df.
  - exists [], []. split; reflexivity.
  - cbn [fetch_loop_traced]. unfold tbind, client_post, sent. cbn [fst snd].
    destruct (post url q) as [s | e]; cbn [fst].
    + destruct (IH (accumulate df s)) as (posted & rest & -> & Hsent).
      exists (q :: posted), rest. split; [reflexivity |].
      unfold sent in Hsent. rewrite Hsent. reflexivity.
    + exists [q], queries. split; reflexivity.
Qed.

(** A loop that ends well has posted every query. *)
Lemma fetch_loop_traced_all (post : string -> Payload -> result DataFrame)
    (url : string) (queries : list Payload) (df df' : DataFrame) :
  outcome (fetch_loop_traced post url queries df) = Ok df' ->
  sent (fetch_loop_traced post url queries df) = map (POST url) queries.
Proof.
  revert df. induction queries as [|q queries IH]; intros df; [reflexivity |].
  cbn [fetch_loop_traced]. unfold tbind, client_post, sent, outcome. cbn [fst snd].
  destruct (post url q) as [s | e]; cbn [fst snd]; [| discriminate].
  intros H. cbn [map app]. f_equal. apply (IH (accumulate df s)). exact H.
Qed.

(** A loop stops at the first request that fails. *)
Lemma fetch_loop_traced_stops (post : string -> Payload -> result DataFrame)
    (url : string) (done rest : list Payload) (q : Payload) (e : exception)
    (df : DataFrame) :
  Forall (fun q' => exists s, post url q' = Ok s) done ->
  post url q = Raise e ->
  fetch_loop_traced post url (done ++ q :: rest) df =
  (map (POST url) (done ++ [q]), Raise e).
Proof.
  intros Hdone Hq. revert df.
  induction Hdone as [|q' done [s Hs] _ IH]; intros df;
    cbn [app fetch_loop_traced]; unfold tbind, client_post; cbn [fst snd].
  - rewrite Hq. reflexivity.
  - rewrite Hs. rewrite (IH (accumulate df s)). reflexivity.
Qed.

(** A read is its metadata GET followed, when the planning succeeds, by the
    loop over the planned sub-queries. *)
Lemma read_table_traced_planned (fuel : nat)
    (get : string -> result (Response Metadata))
    (post : string -> Payload -> result DataFrame) (table_id : string) :
  read_table_traced fuel get post table_id =
  match planned fuel get table_id with
  | Ok qs =>
      (GET (table_url table_id) ::
         sent (fetch_loop_traced post (table_url table_id) (map to_payload qs)
                 DataFrame_new),
       outcome (fetch_loop_traced post (table_url table_id) (map to_payload qs)
                  DataFrame_new))
  | Raise e => ([GET (table_url table_id)], Raise e)
  end.
Proof.
  unfold read_table_traced, planned. rewrite table_metadata_traced_sent.
  unfold tbind, quiet, sent, outcome. cbn [fst snd].
  destruct (table_metadata get table_id) as [metadata | e]; cbn [bind]; [| reflexivity].
  destruct (subscript (m_variables metadata)) as [ds | e]; cbn [bind fst snd app];
    [| reflexivity].
  destruct (build_variables ds) as [variables | e]; cbn [bind fst snd app];
    [| reflexivity].
  destruct (_recursive_split fuel variables) as [qs | e]; cbn [fst snd app];
    reflexivity.
Qed.

Lemma read_table_planned (fuel : nat) (get : string -> result (Response Metadata))
    (post : Payload -> result DataFrame) (table_id : string) :
  read_table fuel (table_metadata get table_id) post =
  (qs <- planned fuel get table_id ;;
   fetch_loop post (map to_payload qs) DataFrame_new).
Proof.
  unfold read_table, planned.
  destruct (table_metadata get table_id) as [metadata | e]; cbn [bind]; [| reflexivity].
  destruct (subscript (m_variables metadata)) as [ds | e]; cbn [bind]; [| reflexivity].
  destruct (build_variables ds) as [variables | e]; cbn [bind]; reflexivity.
Qed.

(** X10: a read sends the metadata GET first and after it only POSTs, all to
    the URL of the GET; the bodies posted are the first of the planned
    sub-queries, in their order, and none when the planning fails (metadata
    request or document, a descriptor, the partitioner).  The outcome is the
    one of [read_table]. *)
Theorem read_sends_get_then_planned_posts (fuel : nat)
    (get : string -> result (Response Metadata))
    (post : string -> Payload -> result DataFrame) (table_id : string) :
  outcome (read_table_traced fuel get post table_id) =
    read_table fuel (table_metadata get table_id) (post (table_url table_id)) /\
  exists posted,
    sent (read_table_traced fuel get post table_id) =
      GET (table_url table_id) :: map (POST (table_url table_id)) posted /\
    match planned fuel get table_id with
    | Ok qs => exists rest, map to_payload qs = posted ++ rest
    | Raise e =>
        posted = [] /\
        outcome (read_table_traced fuel get post table_id) = Raise e
    end.
Proof.
  rewrite read_table_traced_planned, read_table_planned.
  destruct (planned fuel get table_id) as [qs | e]; cbn [bind].
  - split; [apply fetch_loop_traced_outcome |].
    destruct (fetch_loop_traced_prefix post (table_url table_id)
                (map to_payload qs) DataFrame_new) as (posted & rest & Heq & Hsent).
    exists posted. unfold sent at 1. cbn [fst]. rewrite Hsent.
    split; [reflexivity | exists rest; exact Heq].
  - split; [reflexivity |]. exists []. repeat split.
Qed.

(** X11: a read that returns a frame has posted every planned sub-query
    once, in partition order, after the metadata GET. *)
Theorem successful_read_posts_every_sub_query (fuel : nat)
    (get : string -> result (Response Metadata))
    (post : string -> Payload -> result DataFrame) (table_id : string)
    (df : DataFrame) :
  outcome (read_table_traced fuel get post table_id) = Ok df ->
  exists qs,
    planned fuel get table_id = Ok qs /\
    sent (read_table_traced fuel get post table_id) =
      GET (table_url table_id) ::
      map (POST (table_url table_id)) (map to_payload qs).
Proof.
  rewrite read_table_traced_planned.
  destruct (planned fuel get table_id) as [qs | e]; unfold outcome at 1, sent at 1;
    cbn [fst snd]; intros H; [| discriminate].
  exists qs. split; [reflexivity |].
  rewrite (fetch_loop_traced_all _ _ _ _ _ H). reflexivity.
Qed.

(** X12: when a request fails after others succeeded, the read ends with
    the exception of that request: no frame is returned, no sub-query after
    the failed one is posted. *)
Theorem read_stops_at_first_failure (fuel : nat)
    (get : string -> result (Response Metadata))
    (post : string -> Payload -> result DataFrame) (table_id : string)
    (qs : list Query) (done rest : list Payload) (q : Payload) (e : exception) :
  planned fuel get table_id = Ok qs ->
  map to_payload qs = done ++ q :: rest ->
  Forall (fun q' => exists s, post (table_url table_id) q' = Ok s) done ->
  post (table_url table_id) q = Raise e ->
  read_table_traced fuel get post table_id =
  (GET (table_url table_id) :: map (POST (table_url table_id)) (done ++ [q]),
   Raise e).
Proof.
  intros Hplan Hqs Hdone Hq.
  rewrite read_table_traced_planned, Hplan, Hqs.
  rewrite (fetch_loop_traced_stops _ _ _ _ _ _ _ Hdone Hq). reflexivity.
Qed.

Lemma successful_read_posts_every_sub_query_witness :
  exists qs,
    planned 2 (serving (skewed_query ["x"; "y"])) "07459" = Ok qs /\
    sent (read_table_traced 2 (serving (skewed_query ["x"; "y"]))
            (fun _ _ => Ok by_region) "07459") =
      GET (table_url "07459") ::
      map (POST (table_url "07459")) (map to_payload qs).
Proof.
  apply (successful_read_posts_every_sub_query 2 _ _ "07459"
           (pd_concat by_region by_region)).
  vm_compute. reflexivity.
Defined.

Lemma read_stops_at_first_failure_witness :
  read_table_traced 2 (serving (skewed_query ["x"; "y"])) answering_x "07459" =
  (GET (table_url "07459") ::
     map (POST (table_url "07459"))
         ([to_payload (skewed_query ["x"])] ++ [to_payload (skewed_query ["y"])]),
   Raise HTTPStatusError).
Proof.
  apply (read_stops_at_first_failure 2 _ _ "07459"
           [skewed_query ["x"]; skewed_query ["y"]]
           [to_payload (skewed_query ["x"])] []).
  - vm_compute. reflexivity.
  - reflexivity.
  - constructor; [exists by_region; vm_compute; reflexivity | constructor].
  - vm_compute. reflexivity.
Defined.

(** ** What a request asks for *)

Lemma payload_cells_to_payload (q : Query) :
  payload_cells (to_payload q) = _count_combinations q.
Proof.
  unfold payload_cells, _count_combinations, to_payload.
  generalize 1. induction q as [|d q IH]; intros a; cbn [map fold_left].
  - reflexivity.
  - cbn [selection sel_values]. apply IH.
Qed.

Lemma build_variables_Ok_inv (ds : list Descriptor) (variables : list Dimension) :
  build_variables ds = Ok variables -> ds = map descriptor_of variables.
Proof.
  revert variables. induction ds as [|d ds IH]; intros variables H;
    cbn [build_variables] in H.
  - inversion H. reflexivity.
  - destruct d as [[c|] [v|]]; cbn [d_code d_values subscript bind] in H;
      try discriminate.
    destruct (build_variables ds) as [tl | e]; cbn [bind] in H; [| discriminate].
    inversion H; subst. cbn [map]. rewrite <- (IH tl eq_refl). reflexivity.
Qed.

(** X13: building the dimensions and describing them again is a round
    trip: the build returns [variables] exactly for the documents that list
    the descriptors of [variables] in order, and it raises, always
    [KeyError], exactly when some descriptor lacks a key. *)
Theorem build_variables_round_trip (ds : list Descriptor) :
  (forall variables,
     build_variables ds = Ok variables <-> ds = map descriptor_of variables) /\
  (forall e, build_variables ds = Raise e <-> e = KeyError /\ Exists lacks_key ds).
Proof.
  split.
  - intros variables. split.
    + apply build_variables_Ok_inv.
    + intros ->. apply build_variables_complete.
  - intros e. split.
    + intros H. induction ds as [|d ds IH]; cbn [build_variables] in H;
        [discriminate |].
      destruct d as [[c|] [v|]]; cbn [d_code d_values subscript bind] in H.
      * destruct (build_variables ds) as [tl | e'] eqn:E; cbn [bind] in H;
          [discriminate |].
        destruct (IH H) as [He Hex]. split; [exact He | right; exact Hex].
      * inversion H. split; [reflexivity | left; right; reflexivity].
      * inversion H. split; [reflexivity | left; left; reflexivity].
      * inversion H. split; [reflexivity | left; left; reflexivity].
    + intros [-> H]. apply build_variables_lacking. exact H.
Qed.

(** X14: every body a read posts asks for at most 300,000 cells, names the
    codes of the metadata document in its order, and selects by the
    ["item"] filter. *)
Theorem posted_bodies_within_cap (fuel : nat) (ds : list Descriptor)
    (variables : Query) (qs : list Query) :
  build_variables ds = Ok variables ->
  _recursive_split fuel variables = Ok qs ->
  Forall (fun body =>
            payload_cells body <= CAP /\
            map (fun item => Some (q_code item)) body = map d_code ds /\
            Forall (fun item => filter (selection item) = "item") body)
         (map to_payload qs).
Proof.
  intros Hbuild H.
  apply build_variables_Ok_inv in Hbuild. subst ds.
  assert (Hcap : Forall (fun q => _count_combinations q <= CAP) qs).
  { clear - H. revert variables qs H.
    induction fuel as [|fuel IH]; intros variables qs H; [discriminate |].
    returning_activation H.
    - constructor; [exact Hc | constructor].
    - apply Forall_app. split; [exact (IH _ _ H1) | exact (IH _ _ H2)]. }
  assert (Hcodes : Forall (fun q => map code q = map code variables) qs).
  { clear - H. revert variables qs H.
    induction fuel as [|fuel IH]; intros variables qs H; [discriminate |].
    returning_activation H.
    - constructor; [reflexivity | constructor].
    - apply Forall_app. split.
      + eapply Forall_impl; [| exact (IH _ _ H1)]. cbv beta. intros q Hq.
        rewrite Hq. apply sub_query_codes.
      + eapply Forall_impl; [| exact (IH _ _ H2)]. cbv beta. intros q Hq.
        rewrite Hq. apply sub_query_codes. }
  apply Forall_map. rewrite Forall_forall in Hcap, Hcodes. apply Forall_forall.
  intros q Hq. split; [| split].
  - rewrite payload_cells_to_payload. exact (Hcap q Hq).
  - unfold to_payload. rewrite !map_map. cbn [q_code descriptor_of d_code].
    rewrite <- (map_map code Some), <- (map_map code Some variables).
    rewrite (Hcodes q Hq). reflexivity.
  - unfold to_payload. apply Forall_map, Forall_forall. intros d _. reflexivity.
Qed.

Lemma posted_bodies_within_cap_witness :
  Forall (fun body =>
            payload_cells body <= CAP /\
            map (fun item => Some (q_code item)) body =
              map d_code (map descriptor_of (skewed_query ["x"; "y"])) /\
            Forall (fun item => filter (selection item) = "item") body)
         (map to_payload [skewed_query ["x"]; skewed_query ["y"]]).
Proof.
  apply (posted_bodies_within_cap 2 _ (skewed_query ["x"; "y"])).
  - apply build_variables_complete.
  - vm_compute. reflexivity.
Defined.

(** ** A table within the cap *)

(** X15: for a table whose metadata is served and whose cardinality is
    within the cap, a read sends the GET and ONE POST, the body selecting
    every value of every dimension, and its outcome is the outcome of that
    request as it is: the frame unchanged, or the exception. *)
Theorem read_within_cap_is_one_request (fuel : nat)
    (get : string -> result (Response Metadata))
    (post : string -> Payload -> result DataFrame) (table_id : string)
    (variables : Query) :
  get (table_url table_id) =
    Ok {| is_success := true;
          json := Ok {| m_variables := Some (map descriptor_of variables) |} |} ->
  _count_combinations variables <= CAP ->
  read_table_traced (S fuel) get post table_id =
  ([GET (table_url table_id); POST (table_url table_id) (to_payload variables)],
   post (table_url table_id) (to_payload variables)).
Proof.
  intros Hget Hc.
  rewrite read_table_traced_planned.
  unfold planned, table_metadata. rewrite Hget.
  cbn [bind raise_for_status is_success json m_variables subscript].
  rewrite build_variables_complete. cbn [bind].
  rewrite (_recursive_split_leaf fuel variables Hc).
  cbn [map fetch_loop_traced]. unfold tbind, client_post, quiet, sent, outcome.
  cbn [fst snd].
  destruct (post (table_url table_id) (to_payload variables)) as [s | e];
    cbn [fst snd app]; reflexivity.
Qed.

Lemma read_within_cap_is_one_request_witness :
  read_table_traced 1 (serving [ {| code := "x"; values := ["a"] |} ])
                    (fun _ _ => Ok by_region) "07459" =
  ([GET (table_url "07459");
    POST (table_url "07459") (to_payload [ {| code := "x"; values := ["a"] |} ])],
   Ok by_region).
Proof.
  apply (read_within_cap_is_one_request 0 _ (fun _ _ => Ok by_region)).
  - reflexivity.
  - vm_compute. discriminate.
Defined.

(** ** Nothing of a sub-frame is lost in the accumulated frame *)

Lemma holds_rows (done : list DataFrame) (df : DataFrame) :
  holds done df ->
  len (data df) = fold_right Z.add 0 (map (fun s => len (data s)) done).
Proof.
  intros (_ & Hdata & _). rewrite Hdata. clear Hdata.
  induction done as [|s done IH]; cbn [flat_map map fold_right]; [reflexivity |].
  rewrite len_app, IH. unfold realigned, len. rewrite length_map. reflexivity.
Qed.

(** X16: whatever the columns of the sub-frames (well formed, requests
    answered), the frame the loop yields has as many rows as the sub-frames
    together; it has every column of every sub-frame that has rows, and each
    row of a sub-frame is in it, realigned to its columns, with the cells the
    row had under the columns it had. *)
Theorem accumulated_frame_keeps_rows_and_columns
    (post : Payload -> result DataFrame) (queries : list Payload)
    (subs : list DataFrame) :
  Forall2 (fun q s => post q = Ok s) queries subs ->
  Forall well_formed subs ->
  exists df,
    fetch_loop post queries DataFrame_new = Ok df /\
    well_formed df /\
    len (data df) = fold_right Z.add 0 (map (fun s => len (data s)) subs) /\
    forall s row,
      In s subs -> In row (data s) ->
      incl (columns s) (columns df) /\
      In (reindex (columns s) (columns df) row) (data df) /\
      reindex (columns df) (columns s) (reindex (columns s) (columns df) row) = row.
Proof.
  intros Hpost Hwf.
  exists (fold_left accumulate subs DataFrame_new).
  split; [apply fetch_loop_fold; exact Hpost |].
  pose proof (holds_fold subs [] DataFrame_new holds_new Hwf) as Hholds.
  cbn [app] in Hholds.
  split; [exact (proj1 Hholds) |].
  split; [exact (holds_rows _ _ Hholds) |].
  destruct Hholds as (_ & Hdata & Hincl).
  intros s row Hs Hrow.
  rewrite Forall_forall in Hincl, Hwf.
  assert (Hcols : incl (columns s) (columns (fold_left accumulate subs DataFrame_new))).
  { apply (Hincl s Hs). intros E. rewrite E in Hrow. destruct Hrow. }
  split; [exact Hcols |]. split.
  - rewrite Hdata. apply in_flat_map. exists s. split; [exact Hs |].
    unfold realigned. apply in_map. exact Hrow.
  - destruct (Hwf s Hs) as (Hnd & Hrows & _).
    rewrite Forall_forall in Hrows.
    apply reindex_lossless; [exact Hnd | exact (Hrows row Hrow) | exact Hcols].
Qed.

Lemma accumulated_frame_keeps_rows_and_columns_witness :
  exists df,
    fetch_loop (two_schemas) [region_payload; year_payload] DataFrame_new = Ok df /\
    well_formed df /\
    len (data df) = fold_right Z.add 0 (map (fun s => len (data s)) [by_region; by_year]) /\
    forall s row,
      In s [by_region; by_year] -> In row (data s) ->
      incl (columns s) (columns df) /\
      In (reindex (columns s) (columns df) row) (data df) /\
      reindex (columns df) (columns s) (reindex (columns s) (columns df) row) = row.
Proof.
  apply (accumulated_frame_keeps_rows_and_columns two_schemas).
  - repeat constructor.
  - repeat (constructor;
            [apply two_columns_well_formed; [discriminate | repeat constructor] |]).
    constructor.
Defined.

(** * The publication feed *)

Lemma subsequence_refl {A : Type} (l : list A) : subsequence l l.
Proof. induction l; constructor; assumption. Qed.

Lemma filter_subsequence {A : Type} (p : A -> bool) (l : list A) :
  subsequence (List.filter p l) l.
Proof.
  induction l as [|x l IH]; cbn [List.filter]; [constructor |].
  destruct (p x); constructor; exact IH.
Qed.

Lemma published_on_date (d : string) (entry : Entry) :
  published_on d entry = true <-> field "ssbrss_date" entry = Some (Text d).
Proof.
  unfold published_on.
  destruct (field "ssbrss_date" entry) as [[s | n] |].
  - rewrite String.eqb_eq. split; [intros ->; reflexivity | intros E; inversion E; reflexivity].
  - split; discriminate.
  - split; discriminate.
Qed.

(** X17: whatever the date, the entries returned are entries of the feed,
    in feed order; without a date, and with the empty string for a date, the
    feed is returned as it is, the entries that carry no date included. *)
Theorem publications_are_feed_entries (entries : list Entry) (date : option string) :
  subsequence (latest_publications entries date) entries /\
  (date = None \/ date = Some "" -> latest_publications entries date = entries).
Proof.
  split.
  - destruct date as [d |]; cbn [latest_publications]; [| apply subsequence_refl].
    destruct (String.eqb d ""); [apply subsequence_refl | apply filter_subsequence].
  - intros [-> | ->]; reflexivity.
Qed.

Lemma publications_are_feed_entries_witness :
  latest_publications [[("title", Text "KPI")]] (Some "") = [[("title", Text "KPI")]].
Proof.
  apply (proj2 (publications_are_feed_entries _ _)). right. reflexivity.
Defined.

(** X18: with a date that is not empty, an entry is returned exactly when it
    is in the feed and its [ssbrss_date] is a string equal to the date; an
    entry without that key, or with another value for it, is left out. *)
Theorem publications_of_a_date (entries : list Entry) (d : string) (entry : Entry) :
  d <> "" ->
  (In entry (latest_publications entries (Some d)) <->
   In entry entries /\ field "ssbrss_date" entry = Some (Text d)) /\
  (Z.of_nat (List.length (latest_publications entries (Some d)))
   <= Z.of_nat (List.length entries)).
Proof.
  intros Hd. cbn [latest_publications].
  destruct (String.eqb_spec d "") as [E | _]; [contradiction |].
  split.
  - rewrite filter_In, published_on_date. reflexivity.
  - apply inj_le. apply filter_length_le.
Qed.

Lemma publications_of_a_date_witness :
  (In [("ssbrss_date", Text "2025-05-02")]
      (latest_publications [[("title", Text "KPI")];
                            [("ssbrss_date", Text "2025-05-02")]]
                           (Some "2025-05-02")) <->
   In [("ssbrss_date", Text "2025-05-02")]
      [[("title", Text "KPI")]; [("ssbrss_date", Text "2025-05-02")]] /\
   field "ssbrss_date" [("ssbrss_date", Text "2025-05-02")] =
     Some (Text "2025-05-02")) /\
  (Z.of_nat (List.length
               (latest_publications [[("title", Text "KPI")];
                                     [("ssbrss_date", Text "2025-05-02")]]
                                    (Some "2025-05-02")))
   <= Z.of_nat (List.length [[("title", Text "KPI")];
                             [("ssbrss_date", Text "2025-05-02")]])).
Proof.
  apply publications_of_a_date. discriminate.
Defined.

(** X19: filtering what was filtered: for dates that are not empty, the
    publications of [d2] among the publications of [d1] are the publications
    of [d1] when the dates are equal and none when they differ. *)
Theorem publications_filtered_twice (entries : list Entry) (d1 d2 : string) :
  d1 <> "" -> d2 <> "" ->
  latest_publications (latest_publications entries (Some d1)) (Some d2) =
  if String.eqb d1 d2 then latest_publications entries (Some d1) else [].
Proof.
  intros H1 H2. cbn [latest_publications].
  destruct (String.eqb_spec d1 "") as [E | _]; [contradiction |].
  destruct (String.eqb_spec d2 "") as [E | _]; [contradiction |].
  induction entries as [|entry entries IH]; cbn [List.filter].
  - destruct (String.eqb d1 d2); reflexivity.
  - destruct (published_on d1 entry) eqn:P1; [| exact IH].
    cbn [List.filter]. rewrite IH.
    apply published_on_date in P1.
    destruct (String.eqb_spec d1 d2) as [<- | Hne].
    + rewrite (proj2 (published_on_date d1 entry) P1). reflexivity.
    + destruct (published_on d2 entry) eqn:P2; [| reflexivity].
      apply published_on_date in P2. rewrite P1 in P2. inversion P2. contradiction.
Qed.

Lemma publications_filtered_twice_witness :
  latest_publications
    (latest_publications [[("ssbrss_date", Text "2025-05-02")]] (Some "2025-05-02"))
    (Some "2025-05-03") =
  if String.eqb "2025-05-02" "2025-05-03"
  then latest_publications [[("ssbrss_date", Text "2025-05-02")]] (Some "2025-05-02")
  else [].
Proof.
  apply publications_filtered_twice; discriminate.
Defined.

(** * The GET functions *)

(** X20: [table_metadata] and [search] check the status before they decode
    the body: each returns a decoded body exactly when the response to its
    one GET has a success status and a body that decodes, and raises
    [HTTPStatusError] on a response of any other status, whatever its
    body. *)
Theorem status_checked_before_body {J : Type} (get : string -> result (Response J))
    (table_id : string) (keywords : list string) :
  (forall j, table_metadata get table_id = Ok j <->
             exists response,
               get (table_url table_id) = Ok response /\
               is_success response = true /\ json response = Ok j) /\
  (forall response,
     get (table_url table_id) = Ok response -> is_success response = false ->
     table_metadata get table_id = Raise HTTPStatusError) /\
  (forall j, search get keywords = Ok j <->
             exists response,
               get (String.append "https://data.ssb.no/api/v0/no/table/?query="
                                  (join "%20" keywords)) = Ok response /\
               is_success response = true /\ json response = Ok j) /\
  (forall response,
     get (String.append "https://data.ssb.no/api/v0/no/table/?query="
                        (join "%20" keywords)) = Ok response ->
     is_success response = false ->
     search get keywords = Raise HTTPStatusError).
Proof.
  unfold table_metadata, search, raise_for_status.
  split; [| split; [| split]].
  - intros j. split.
    + destruct (get (table_url table_id)) as [response | e]; cbn [bind]; [| discriminate].
      destruct (is_success response) eqn:Es; cbn [bind]; [| discriminate].
      destruct (json response) as [j' | e] eqn:Ej; cbn [bind]; [| discriminate].
      intros H. inversion H; subst. exists response. auto.
    + intros (response & -> & Es & Ej). cbn [bind]. rewrite Es. cbn [bind].
      rewrite Ej. reflexivity.
  - intros response -> Es. cbn [bind]. rewrite Es. reflexivity.
  - intros j. cbv zeta. split.
    + destruct (get _) as [response | e]; cbn [bind]; [| discriminate].
      destruct (is_success response) eqn:Es; cbn [bind]; [| discriminate].
      destruct (json response) as [j' | e] eqn:Ej; cbn [bind]; [| discriminate].
      intros H. inversion H; subst. exists response. auto.
    + intros (response & -> & Es & Ej). cbn [bind]. rewrite Es. cbn [bind].
      rewrite Ej. reflexivity.
  - intros response Hget Es. cbv zeta. rewrite Hget. cbn [bind]. rewrite Es.
    reflexivity.
Qed.

Lemma join_unescaped (sep k1 k2 : string) (rest : list string) :
  join sep (String.append k1 (String.append sep k2) :: rest) =
  join sep (k1 :: k2 :: rest).
Proof.
  assert (Hassoc : forall a b c : string,
             String.append (String.append a b) c = String.append a (String.append b c)).
  { induction a as [|x a IH]; intros b c; cbn [String.append];
      [reflexivity | rewrite IH; reflexivity]. }
  destruct rest as [|r rest]; cbn [join]; [reflexivity |].
  rewrite !Hassoc. reflexivity.
Qed.

(** X21: [search] does not escape its keywords: a keyword that contains the
    separator ["%20"] gives the request, and so the outcome, of the two
    keywords around it; and no keyword at all gives the request of one empty
    keyword. *)
Theorem search_does_not_escape {J : Type} (get : string -> result (Response J))
    (k1 k2 : string) (rest : list string) :
  search get (String.append k1 (String.append "%20" k2) :: rest) =
    search get (k1 :: k2 :: rest) /\
  search get [] = search get [""].
Proof.
  unfold search. rewrite join_unescaped. split; reflexivity.
Qed.

Lemma status_checked_before_body_witness :
  table_metadata (serving [ {| code := "x"; values := ["a"] |} ]) "07459" =
  Ok {| m_variables := Some (map descriptor_of [ {| code := "x"; values := ["a"] |} ]) |}.
Proof.
  apply (proj1 (status_checked_before_body
                  (serving [ {| code := "x"; values := ["a"] |} ]) "07459" [])).
  eexists. repeat split.
Defined.

Lemma build_variables_round_trip_witness :
  build_variables (map descriptor_of [ {| code := "x"; values := [] |} ]) =
  Ok [ {| code := "x"; values := [] |} ].
Proof.
  apply (proj1 (build_variables_round_trip _)). reflexivity.
Defined.

(** * Coverage and conservation at a query that never returns *)

Lemma binary_query_codes : NoDup (map code (binary_query 21)).
Proof.
  assert (H : nodup string_dec (map code (binary_query 21)) = map code (binary_query 21))
    by (vm_compute; reflexivity).
  rewrite <- H. apply NoDup_nodup.
Qed.

(** The first split is on [d0]; in its second half [d0] has the single value
    ["b"], the greatest list, while the cardinality 1048576 is still over
    the cap: that half never returns, and so the whole call. *)
Lemma binary_query_recursion (fuel : nat) :
  _recursive_split fuel (binary_query 21) = Raise RecursionError.
Proof.
  destruct fuel as [|fuel]; [reflexivity |].
  rewrite (_recursive_split_node fuel (binary_query 21)
             {| code := "d0"; values := ["a"; "b"] |});
    [| vm_compute; reflexivity | vm_compute; reflexivity].
  assert (H2 : _recursive_split fuel
                 (sub_query {| code := "d0"; values := ["a"; "b"] |}
                    (skipn (split_index {| code := "d0"; values := ["a"; "b"] |})
                       (values {| code := "d0"; values := ["a"; "b"] |}))
                    (binary_query 21)) = Raise RecursionError).
  { apply (selection_of_one_value_loops _ {| code := "d0"; values := ["b"] |}).
    - vm_compute. reflexivity.
    - vm_compute. reflexivity.
    - cbn [values List.length]. lia. }
  rewrite H2.
  destruct (_recursive_split fuel
              (sub_query {| code := "d0"; values := ["a"; "b"] |}
                 (firstn (split_index {| code := "d0"; values := ["a"; "b"] |})
                    (values {| code := "d0"; values := ["a"; "b"] |}))
                 (binary_query 21))) as [r1 | e] eqn:E1.
  - reflexivity.
  - rewrite (_recursive_split_Raise _ _ _ E1). reflexivity.
Qed.

(** C4, at 21 dimensions of two values each, with pairwise distinct codes:
    the cross-product has cells (the one taking ["a"] everywhere is one of
    2097152), but whatever the recursion limit the call ends in
    [RecursionError]: no sequence of queries is returned that covers them. *)
Theorem binary_query_cells_never_covered :
  NoDup (map code (binary_query 21)) /\
  Forall (fun d => values d = ["a"; "b"]) (binary_query 21) /\
  CAP < _count_combinations (binary_query 21) /\
  In (repeat "a" 21) (cells (binary_query 21)) /\
  (forall fuel, _recursive_split fuel (binary_query 21) = Raise RecursionError) /\
  ~ (exists fuel qs,
       _recursive_split fuel (binary_query 21) = Ok qs /\
       Permutation (cells (binary_query 21)) (flat_map cells qs)).
Proof.
  split; [exact binary_query_codes |].
  split; [unfold binary_query; apply Forall_map, Forall_forall; reflexivity |].
  split; [vm_compute; reflexivity |].
  split.
  - apply In_cells. unfold binary_query. cbn [seq map repeat].
    repeat (constructor; [cbn [values In]; left; reflexivity |]). constructor.
  - split; [exact binary_query_recursion |].
    intros (fuel & qs & H & _). rewrite binary_query_recursion in H. discriminate.
Qed.

(** C5, at the same 21 dimensions: the product of the value counts is
    2097152, but whatever the recursion limit the call ends in
    [RecursionError]: no queries are returned whose cardinalities sum to
    it. *)
Theorem binary_query_cardinality_never_returned :
  NoDup (map code (binary_query 21)) /\
  _count_combinations (binary_query 21) = 2097152 /\
  (forall fuel, _recursive_split fuel (binary_query 21) = Raise RecursionError) /\
  ~ (exists fuel qs,
       _recursive_split fuel (binary_query 21) = Ok qs /\
       total_cardinality qs = _count_combinations (binary_query 21)).
Proof.
  split; [exact binary_query_codes |].
  split; [vm_compute; reflexivity |].
  split; [exact binary_query_recursion |].
  intros (fuel & qs & H & _). rewrite binary_query_recursion in H. discriminate.
Qed.
